(** * Lifecycle protocol of [StripeElementDirective]

    Shallow embedding of [stripe/src/lib/elements/element.directive.ts].

    The directive wraps a widget that the surrounding container creates
    asynchronously.  Its constructor builds the stream

      element$ = init$.pipe( take(1),
                             switchMap( o => elements.create(type, o).pipe( tap(...) ) ),
                             shareReplay(1) )

    and subscribes to it at once.  The embedding keeps the state of every
    operator of that stream next to the fields of the class, and threads a
    log of the calls made on the collaborators (the container, the widget,
    the output emitters).

    What the environment does is part of a run: the stream returned by
    [elements.create] delivers a widget ([Emits]) or completes
    ([Completes]), and a widget invokes a callback registered through
    [on] ([Fires]).  Such a step is only possible in a state that enables
    it, so a run is a partial function.

    The container is not in this file.  Its stream is taken to deliver and
    to complete, not to fail: an error notification would make
    [shareReplay] forget its subject and subscribe the chain anew on the
    next [forward], and is not part of the model.  The operators are those
    of RxJS 6.4 and later, where [shareReplay(1)] keeps its source
    subscribed when its last subscriber leaves.  The accessors of the
    options and [computeBaseStyle] do not take part in the protocol; they
    are embedded on their own, after the lifecycle. *)

From stdpp Require Import base decidable option list sets strings.
From stdpp Require Import gmap.
From Stdlib Require Import Lia.

(** ** Data *)

(** [StripeError], as far as the directive looks at it: an object. *)
Record StripeError := { err_type : string; err_message : string }.

(** [StripeElementChangeEvent]: the snapshot read by the getters. *)
Record StripeElementChangeEvent := {
  ce_empty : bool;
  ce_complete : bool;
  ce_error : option StripeError   (* [undefined] when the input is valid *)
}.

(** The events the base class hooks on a widget. *)
Inductive EventName := ev_ready | ev_focus | ev_blur.

(** The closures handed to [forward]:
    [instance => instance.focus()], [.blur()], [.clear()], [.destroy()]. *)
Inductive Method := m_focus | m_blur | m_clear | m_destroy.

(** State of the inner subscription held by [switchMap]. *)
Inductive InnerSub :=
  | Idle      (* nothing projected yet: [take(1)] still waits on [init$] *)
  | Active    (* subscribed to the stream returned by [create] *)
  | Done.     (* that stream has completed *)

(** What [new Error(...)] carries. *)
Inductive Exception := Error (message : string).

#[global] Instance EventName_eq_dec : EqDecision EventName.
Proof. solve_decision. Defined.
#[global] Instance Method_eq_dec : EqDecision Method.
Proof. solve_decision. Defined.
#[global] Instance InnerSub_eq_dec : EqDecision InnerSub.
Proof. solve_decision. Defined.

Section Directive.

(** [T extends StripeElementType], [StripeElementOptions<T>],
    [StripeElement<T>] (an object: compared by identity),
    [StripeElementsDirective] and [HTMLElement]. *)
Context {T Options Element Container Anchor : Type}.
Context `{!EqDecision Element}.

(** Calls the directive makes on its collaborators, in program order. *)
Inductive Call :=
  | Create (type : T) (options : Options)   (* elements.create(elementType, options) *)
  | On (elm : Element) (name : EventName)   (* elm.on(name, handler) *)
  | Mount (elm : Element) (anchor : Anchor) (* elm.mount(ref.nativeElement) *)
  | Invoke (m : Method) (elm : Element)     (* elm.focus() / blur() / clear() / destroy() *)
  | ReadyChange (b : bool)                  (* readyChange.emit(b) *)
  | FocusChange                             (* focusChange.emit() *)
  | BlurChange.                             (* blurChange.emit() *)

(** The directive, the operators of [element$], and the world around. *)
Record state := {
  (* captured by the closures of the constructor *)
  elementType : T;
  elements : Container;
  ref : Anchor;
  (* fields of the class; [None] is [undefined] *)
  _instance : option Element;
  _value : option StripeElementChangeEvent;
  _ready : option bool;
  _focused : option bool;
  sub_closed : bool;              (* this.sub.closed *)
  (* init$.pipe(take(1), ...) *)
  taken : bool;                   (* take(1) has passed its value on and completed *)
  (* switchMap *)
  inner : InnerSub;
  (* shareReplay(1): the ReplaySubject behind element$ *)
  buffer : option Element;        (* the replayed value *)
  stopped : bool;                 (* the subject has completed *)
  pending : list Method;          (* take(1) subscribers added by [forward], oldest first *)
  (* the world *)
  handlers : list (Element * EventName);   (* callbacks registered on widgets *)
  calls : list Call
}.

(** *** Field updates *)

Definition log (cs : list Call) (s : state) : state :=
  {| elementType := elementType s; elements := elements s; ref := ref s;
     _instance := _instance s; _value := _value s; _ready := _ready s;
     _focused := _focused s; sub_closed := sub_closed s; taken := taken s;
     inner := inner s; buffer := buffer s; stopped := stopped s;
     pending := pending s; handlers := handlers s;
     calls := calls s ++ cs |}.

Definition set_instance (e : Element) (s : state) : state :=
  {| elementType := elementType s; elements := elements s; ref := ref s;
     _instance := Some e; _value := _value s; _ready := _ready s;
     _focused := _focused s; sub_closed := sub_closed s; taken := taken s;
     inner := inner s; buffer := buffer s; stopped := stopped s;
     pending := pending s; handlers := handlers s; calls := calls s |}.

Definition set_ready (b : bool) (s : state) : state :=
  {| elementType := elementType s; elements := elements s; ref := ref s;
     _instance := _instance s; _value := _value s; _ready := Some b;
     _focused := _focused s; sub_closed := sub_closed s; taken := taken s;
     inner := inner s; buffer := buffer s; stopped := stopped s;
     pending := pending s; handlers := handlers s; calls := calls s |}.

Definition set_focused (b : bool) (s : state) : state :=
  {| elementType := elementType s; elements := elements s; ref := ref s;
     _instance := _instance s; _value := _value s; _ready := _ready s;
     _focused := Some b; sub_closed := sub_closed s; taken := taken s;
     inner := inner s; buffer := buffer s; stopped := stopped s;
     pending := pending s; handlers := handlers s; calls := calls s |}.

Definition set_sub_closed (s : state) : state :=
  {| elementType := elementType s; elements := elements s; ref := ref s;
     _instance := _instance s; _value := _value s; _ready := _ready s;
     _focused := _focused s; sub_closed := true; taken := taken s;
     inner := inner s; buffer := buffer s; stopped := stopped s;
     pending := pending s; handlers := handlers s; calls := calls s |}.

Definition set_taken (s : state) : state :=
  {| elementType := elementType s; elements := elements s; ref := ref s;
     _instance := _instance s; _value := _value s; _ready := _ready s;
     _focused := _focused s; sub_closed := sub_closed s; taken := true;
     inner := inner s; buffer := buffer s; stopped := stopped s;
     pending := pending s; handlers := handlers s; calls := calls s |}.

Definition set_inner (i : InnerSub) (s : state) : state :=
  {| elementType := elementType s; elements := elements s; ref := ref s;
     _instance := _instance s; _value := _value s; _ready := _ready s;
     _focused := _focused s; sub_closed := sub_closed s; taken := taken s;
     inner := i; buffer := buffer s; stopped := stopped s;
     pending := pending s; handlers := handlers s; calls := calls s |}.

Definition set_subject (b : option Element) (st : bool) (q : list Method)
    (s : state) : state :=
  {| elementType := elementType s; elements := elements s; ref := ref s;
     _instance := _instance s; _value := _value s; _ready := _ready s;
     _focused := _focused s; sub_closed := sub_closed s; taken := taken s;
     inner := inner s; buffer := b; stopped := st;
     pending := q; handlers := handlers s; calls := calls s |}.

Definition hook (hs : list (Element * EventName)) (s : state) : state :=
  {| elementType := elementType s; elements := elements s; ref := ref s;
     _instance := _instance s; _value := _value s; _ready := _ready s;
     _focused := _focused s; sub_closed := sub_closed s; taken := taken s;
     inner := inner s; buffer := buffer s; stopped := stopped s;
     pending := pending s; handlers := handlers s ++ hs; calls := calls s |}.

(** ** Getters *)

(** [get instance() { return this._instance; }] *)
Definition instance (s : state) : option Element := _instance s.

(** [get value() { return this._value; }] *)
Definition value (s : state) : option StripeElementChangeEvent := _value s.

(** [get empty() { return !this._value || this._value.empty; }] *)
Definition empty (s : state) : bool :=
  match _value s with None => true | Some v => ce_empty v end.

(** [get complete() { return !!this._value && this._value.complete; }] *)
Definition complete (s : state) : bool :=
  match _value s with None => false | Some v => ce_complete v end.

(** [get error() { return !!this._value && this._value.error || null; }]
    with [None] for [null]: an error object is truthy, so [x || null]
    keeps it, and turns [false] and [undefined] into [null]. *)
Definition error (s : state) : option StripeError :=
  match _value s with None => None | Some v => ce_error v end.

(** [get ready() { return !!this._ready; }] *)
Definition ready (s : state) : bool := default false (_ready s).

(** [get focused() { return !!this._focused; }] *)
Definition focused (s : state) : bool := default false (_focused s).

(** [get disabled() { return false; }] *)
Definition disabled (_ : state) : bool := false.

(** ** The constructor *)

(** The message of the error thrown when the container is missing. *)
Definition usage_error : Exception := Error "
      You're attempting to use a Stripe Element out of a proper StripeElements container.
      Make sure to wrap all the controls within a wm-stripe-elements directive.
    "%string.

(** The object built when the container is there.  [this.element$.subscribe()]
    subscribes the whole chain: a ReplaySubject with an empty buffer,
    [switchMap] without an inner subscription, [take(1)] waiting on [init$].
    No field of the class but [init$], [_options] and [sub] is assigned. *)
Definition new (elementType : T) (elements : Container) (ref : Anchor) : state :=
  {| elementType := elementType; elements := elements; ref := ref;
     _instance := None; _value := None; _ready := None; _focused := None;
     sub_closed := false; taken := false; inner := Idle; buffer := None;
     stopped := false; pending := []; handlers := []; calls := [] |}.

(** [constructor(elementType, elements, ref)]; a missing container is
    [None], and [inl] is a thrown exception. *)
Definition constructor (elementType : T) (elements : option Container)
    (ref : Anchor) : Exception + state :=
  match elements with
  | None => inl usage_error
  | Some c => inr (new elementType c ref)
  end.

(** ** Methods *)

(** [init(options) { this.init$.next(options); }]
    The only observer [init$] ever has is the [take(1)] of [element$], and
    it leaves with the first value.  That value goes through [switchMap],
    which calls [elements.create] and subscribes to the result. *)
Definition init (options : Options) (s : state) : state :=
  if taken s then s
  else log [Create (elementType s) options] (set_inner Active (set_taken s)).

(** [forward(fn)]: short circuit on the current instance; otherwise
    [element$.pipe(take(1)).subscribe(fn)], a new observer of the
    ReplaySubject: served at once from the buffer, dropped at once when the
    subject has completed empty, queued otherwise. *)
Definition forward (fn : Method) (s : state) : state :=
  match instance s with
  | Some elm => log [Invoke fn elm] s
  | None =>
      match buffer s with
      | Some elm => log [Invoke fn elm] s
      | None =>
          if stopped s then s
          else set_subject (buffer s) (stopped s) (pending s ++ [fn]) s
      end
  end.

(** [disable(_: boolean) {}] *)
Definition disable (_ : bool) (s : state) : state := s.

(** [focus() { this.forward( instance => instance.focus() ); }] *)
Definition focus (s : state) : state := forward m_focus s.

(** [blur() { this.forward( instance => instance.blur() ); }] *)
Definition blur (s : state) : state := forward m_blur s.

(** [clear() { this.forward( instance => instance.clear() ); }] *)
Definition clear (s : state) : state := forward m_clear s.

(** [this.sub.unsubscribe()]: a closed Subscription ignores the call.  The
    ReplaySubject was made without [refCount], so the chain behind it stays
    subscribed. *)
Definition unsubscribe (s : state) : state :=
  if sub_closed s then s else set_sub_closed s.

(** [ngOnDestroy() { this.forward( instance => instance.destroy() );
                     this.sub.unsubscribe(); }] *)
Definition ngOnDestroy (s : state) : state := unsubscribe (forward m_destroy s).

(** ** The environment *)

(** The callback of [tap], run on every widget delivered by [create]. *)
Definition tap (elm : Element) (s : state) : state :=
  (* this._instance && this._instance.destroy(); *)
  let s := match _instance s with
           | Some previous => log [Invoke m_destroy previous] s
           | None => s
           end in
  (* elm.on('ready', ...); elm.on('focus', ...); elm.on('blur', ...); *)
  let s := hook [(elm, ev_ready)] (log [On elm ev_ready] s) in
  let s := hook [(elm, ev_focus)] (log [On elm ev_focus] s) in
  let s := hook [(elm, ev_blur)] (log [On elm ev_blur] s) in
  (* elm.mount(ref.nativeElement); *)
  let s := log [Mount elm (ref s)] s in
  (* return this._instance = elm; *)
  set_instance elm s.

(** [ReplaySubject.next(elm)] as [shareReplay(1)] calls it: the value
    replaces the buffer and goes to the observers in subscription order.
    The observer behind [sub] does nothing; each observer added by
    [forward] runs its closure and, being a [take(1)], leaves. *)
Definition next (elm : Element) (s : state) : state :=
  if stopped s then s
  else log ((fun fn => Invoke fn elm) <$> pending s)
           (set_subject (Some elm) (stopped s) [] s).

(** Modelled from the spec: [StripeElementsDirective.create] lives in
    [elements.directive.ts], which is not part of this file.  It is taken
    for what the spec says of it, an asynchronous producer of widget
    handles: once subscribed, the stream it returns may deliver a widget,
    any number of times, and may complete; it does not fail.

    The stream returned by [create] delivers a widget: [tap] runs, then the
    widget reaches the ReplaySubject of [shareReplay(1)]. *)
Definition emits (elm : Element) (s : state) : option state :=
  if decide (inner s = Active) then Some (next elm (tap elm s)) else None.

(** Modelled from the spec: see [emits].
    The stream returned by [create] completes.  [take(1)] has completed
    before, so [switchMap] completes, and so does the ReplaySubject: every
    observer is told and dropped, [sub] closes itself. *)
Definition completes (s : state) : option state :=
  if decide (inner s = Active)
  then Some (set_sub_closed (set_subject (buffer s) true [] (set_inner Done s)))
  else None.

(** The three callbacks registered by [tap]. *)
Definition handler (name : EventName) (s : state) : state :=
  match name with
  | ev_ready => log [ReadyChange true] (set_ready true s)
      (* this.readyChange.emit(this._ready = true) *)
  | ev_focus => log [FocusChange] (set_focused true s)
      (* this._focused = true; this.focusChange.emit() *)
  | ev_blur => log [BlurChange] (set_focused false s)
      (* this._focused = false; this.blurChange.emit() *)
  end.

(** A widget invokes a callback registered on it. *)
Definition fires (elm : Element) (name : EventName) (s : state) : option state :=
  if decide ((elm, name) ∈ handlers s) then Some (handler name s) else None.

(** ** Runs *)

(** What can happen to a directive: the first six are calls of its
    methods, the last three are moves of the environment. *)
Inductive event :=
  | Init (options : Options)
  | Focus
  | Blur
  | Clear
  | Disable (flag : bool)
  | NgOnDestroy
  | Emits (elm : Element)
  | Completes
  | Fires (elm : Element) (name : EventName).

Definition step (e : event) (s : state) : option state :=
  match e with
  | Init o => Some (init o s)
  | Focus => Some (focus s)
  | Blur => Some (blur s)
  | Clear => Some (clear s)
  | Disable b => Some (disable b s)
  | NgOnDestroy => Some (ngOnDestroy s)
  | Emits elm => emits elm s
  | Completes => completes s
  | Fires elm name => fires elm name s
  end.

(** [None] when the environment makes a move that the state does not
    enable. *)
Fixpoint run (evs : list event) (s : state) : option state :=
  match evs with
  | [] => Some s
  | e :: evs' => step e s ≫= run evs'
  end.

(** A program: [new StripeElementDirective(...)], then a run on the object
    if there is one. *)
Definition session (elementType : T) (elements : option Container) (ref : Anchor)
    (evs : list event) : Exception + option state :=
  match constructor elementType elements ref with
  | inl exn => inl exn
  | inr s => inr (run evs s)
  end.

(** The calls made by a program: none when the constructor threw, or when
    the run is not one the environment can produce. *)
Definition effects (outcome : Exception + option state) : list Call :=
  match outcome with
  | inr (Some s) => calls s
  | _ => []
  end.

(** ** Reading a run and a log *)

(** The options pushed through [init], oldest first. *)
Definition inits (evs : list event) : list Options :=
  omap (fun e => match e with Init o => Some o | _ => None end) evs.

(** The widgets delivered by the container's stream, oldest first. *)
Definition emitted (evs : list event) : list Element :=
  omap (fun e => match e with Emits elm => Some elm | _ => None end) evs.

(** Whether the container's stream has completed. *)
Definition completed (evs : list event) : bool :=
  existsb (fun e => match e with Completes => true | _ => false end) evs.

(** Whether the directive was disposed of. *)
Definition disposed (evs : list event) : bool :=
  existsb (fun e => match e with NgOnDestroy => true | _ => false end) evs.

(** The closures handed to [forward], oldest first. *)
Definition requested (evs : list event) : list Method :=
  omap (fun e => match e with
                 | Focus => Some m_focus
                 | Blur => Some m_blur
                 | Clear => Some m_clear
                 | NgOnDestroy => Some m_destroy
                 | _ => None
                 end) evs.

(** The callbacks invoked by widgets, oldest first. *)
Definition fired (evs : list event) : list EventName :=
  omap (fun e => match e with Fires _ name => Some name | _ => None end) evs.

(** The focus and blur notifications among them. *)
Definition focus_notifications (evs : list event) : list EventName :=
  filter (fun name => name <> ev_ready) (fired evs).

(** Arguments of the [create] calls of a log. *)
Definition creates (cs : list Call) : list (T * Options) :=
  omap (fun c => match c with Create t o => Some (t, o) | _ => None end) cs.

(** Arguments of the [mount] calls of a log. *)
Definition mounts (cs : list Call) : list (Element * Anchor) :=
  omap (fun c => match c with Mount elm a => Some (elm, a) | _ => None end) cs.

(** Targets of the calls of method [m] in a log. *)
Definition invocations (m : Method) (cs : list Call) : list Element :=
  omap (fun c => match c with
                 | Invoke m' elm => if decide (m' = m) then Some elm else None
                 | _ => None
                 end) cs.

(** How often [m] occurs in a list of closures. *)
Definition count (m : Method) (q : list Method) : nat :=
  length (filter (fun m' => m' = m) q).

(** Every call of a method of a widget comes after the [mount] of that
    widget. *)
Definition mounted_first (cs : list Call) : Prop :=
  forall before after m elm,
    cs = before ++ Invoke m elm :: after -> exists a, Mount elm a ∈ before.

(** The three registrations [tap] makes on a widget. *)
Definition hooks (elm : Element) : list (Element * EventName) :=
  [(elm, ev_ready); (elm, ev_focus); (elm, ev_blur)].

(** Number of steps of a run at which a flag goes from [false] to [true],
    and from [true] to [false]. *)
Fixpoint rises (f : state -> bool) (evs : list event) (s : state) : nat :=
  match evs with
  | [] => 0
  | e :: evs' =>
      match step e s with
      | Some s' => (if negb (f s) && f s' then 1 else 0) + rises f evs' s'
      | None => 0
      end
  end.

Fixpoint falls (f : state -> bool) (evs : list event) (s : state) : nat :=
  match evs with
  | [] => 0
  | e :: evs' =>
      match step e s with
      | Some s' => (if f s && negb (f s') then 1 else 0) + falls f evs' s'
      | None => 0
      end
  end.

(** Method calls made on widgets, with their targets, oldest first. *)
Definition invokes (cs : list Call) : list (Method * Element) :=
  omap (fun c => match c with Invoke m elm => Some (m, elm) | _ => None end) cs.

(** Callback registrations made on widgets, oldest first. *)
Definition registrations (cs : list Call) : list (Element * EventName) :=
  omap (fun c => match c with On elm name => Some (elm, name) | _ => None end) cs.

(** What the callback registered for [name] emits. *)
Definition emission (name : EventName) : Call :=
  match name with
  | ev_ready => ReadyChange true
  | ev_focus => FocusChange
  | ev_blur => BlurChange
  end.

(** Emissions on the outputs of the directive, oldest first. *)
Definition outputs (cs : list Call) : list Call :=
  omap (fun c => match c with
                 | ReadyChange _ | FocusChange | BlurChange => Some c
                 | _ => None
                 end) cs.

(** The calls a step adds to the log of a state that a run [evs] from
    [new type c anchor] has reached. *)
Definition produced (type : T) (anchor : Anchor) (evs : list event) (e : event)
    : list Call :=
  let to_instance m :=
    match last (emitted evs) with
    | Some elm => [Invoke m elm]
    | None => []
    end in
  match e with
  | Init o => match inits evs with [] => [Create type o] | _ => [] end
  | Focus => to_instance m_focus
  | Blur => to_instance m_blur
  | Clear => to_instance m_clear
  | NgOnDestroy => to_instance m_destroy
  | Disable _ => []
  | Completes => []
  | Emits elm =>
      match last (emitted evs) with
      | Some previous =>
          [Invoke m_destroy previous;
           On elm ev_ready; On elm ev_focus; On elm ev_blur; Mount elm anchor]
      | None =>
          [On elm ev_ready; On elm ev_focus; On elm ev_blur; Mount elm anchor]
          ++ ((fun fn => Invoke fn elm) <$> requested evs)
      end
  | Fires _ name => [emission name]
  end.

(** A run without the callbacks that widgets invoked. *)
Definition silenced (evs : list event) : list event :=
  omap (fun e => match e with Fires _ _ => None | _ => Some e end) evs.

(** The calls of a log made on the container and on widgets. *)
Definition collaborators (cs : list Call) : list Call :=
  omap (fun c => match c with
                 | ReadyChange _ | FocusChange | BlurChange => None
                 | _ => Some c
                 end) cs.

(** Two states with the same [_value], [_ready], [_focused] and
    [sub.closed]. *)
Definition same_flags (s s' : state) : Prop :=
  _value s' = _value s /\ _ready s' = _ready s /\ _focused s' = _focused s
  /\ sub_closed s' = sub_closed s.

(** What a state reached by a run from [new type c anchor] has to do with
    that run. *)
Record consistent (type : T) (anchor : Anchor) (evs : list event) (s : state)
    : Prop := {
  cons_type : elementType s = type;
  cons_ref : ref s = anchor;
  cons_taken : taken s = match inits evs with [] => false | _ => true end;
  cons_inner :
    inner s = match inits evs with
              | [] => Idle
              | _ => if completed evs then Done else Active
              end;
  cons_started : inits evs = [] -> completed evs = false /\ emitted evs = [];
  cons_stopped : stopped s = completed evs;
  cons_instance : _instance s = last (emitted evs);
  cons_buffer : buffer s = last (emitted evs);
  cons_pending :
    pending s = match last (emitted evs) with
                | Some _ => []
                | None => if completed evs then [] else requested evs
                end;
  cons_handlers : handlers s = emitted evs ≫= hooks;
  cons_creates :
    creates (calls s) = match head (inits evs) with
                        | Some o => [(type, o)]
                        | None => []
                        end;
  cons_mounts : mounts (calls s) = (fun elm => (elm, anchor)) <$> emitted evs;
  cons_invocations : forall m,
    length (invocations m (calls s)) =
      match last (emitted evs) with
      | None => 0
      | Some _ =>
          count m (requested evs)
          + (if decide (m = m_destroy) then length (emitted evs) - 1 else 0)
      end;
  cons_targets : forall m elm, Invoke m elm ∈ calls s -> elm ∈ emitted evs;
  cons_order : mounted_first (calls s)
}.

End Directive.

Arguments Call : clear implicits.
Arguments state : clear implicits.
Arguments event : clear implicits.
Arguments consistent {T Options Element Container Anchor} type anchor evs s.


(** ** A concrete directive

    Element types, options and anchors are strings, widgets are numbered,
    and the container is a token. *)
Module Card.

Definition directive : Type := state string string nat unit string.

Definition fresh : directive := new "card"%string tt "div#card"%string.

Definition styleA : string := "styleA".
Definition styleB : string := "styleB".

(** The state a run leads to; the new directive itself when the run is not
    possible. *)
Definition after (evs : list (event string nat)) : directive :=
  default fresh (run evs fresh).

(** Requests and two pushes of options before the widget comes. *)
Definition early : list (event string nat) :=
  [Clear; Init styleA; Init styleB; Focus].

(** The widget comes, reports, and is used. *)
Definition late : list (event string nat) :=
  [Emits 1; Fires 1 ev_ready; Fires 1 ev_focus; Fires 1 ev_blur;
   Fires 1 ev_focus; Disable true; Blur].

(** A whole life: the above, then disposal. *)
Definition life : list (event string nat) := early ++ late ++ [NgOnDestroy].

(** Disposal while the container has not delivered yet. *)
Definition hasty : list (event string nat) :=
  [Init styleA; Clear] ++ NgOnDestroy :: [Focus; Emits 1; Blur].

(** Disposal twice over, after delivery. *)
Definition twice : list (event string nat) :=
  [Init styleA; Emits 1; NgOnDestroy; NgOnDestroy].

End Card.

(** ** The options of the widget

    [_options] and the accessors built on it: the getters [options],
    [classes] and [style], and the five class inputs.  An object is a
    finite map from property names to values; the object a getter returns
    is the one that is stored, so a property assigned on the result is
    assigned in the store. *)

(** The errors the runtime throws on its own. *)
Inductive RuntimeError := TypeError | ReferenceError.

Section Configuration.

(** What a style object and the other options hold. *)
Context {StyleValue Other : Type}.

(** [StripeElementOptions<T>]: the two properties the class reads, and the
    rest. *)
Record OptionsObject := {
  o_classes : option (gmap string string);      (* options.classes *)
  o_style : option (gmap string StyleValue);    (* options.style *)
  o_other : gmap string Other
}.

(** [{}] *)
Definition empty_options : OptionsObject :=
  {| o_classes := None; o_style := None; o_other := ∅ |}.

(** The part of the directive the accessors work on; [None] is a field
    that holds [undefined] or [null]. *)
Record Configuration := { _options : option OptionsObject }.

(** [private _options: StripeElementOptions<T> = {} as any;] *)
Definition configured : Configuration := {| _options := Some empty_options |}.

Definition with_classes (cls : gmap string string) (o : OptionsObject)
    : OptionsObject :=
  {| o_classes := Some cls; o_style := o_style o; o_other := o_other o |}.

Definition with_style (st : gmap string StyleValue) (o : OptionsObject)
    : OptionsObject :=
  {| o_classes := o_classes o; o_style := Some st; o_other := o_other o |}.

(** [get options() { return this._options || (this._options = {} as any); }]
    The object returned, and the directive afterwards. *)
Definition options (d : Configuration) : OptionsObject * Configuration :=
  match _options d with
  | Some o => (o, d)
  | None => (empty_options, {| _options := Some empty_options |})
  end.

(** [get classes() { return this._options.classes
                            || (this._options.classes = {}); }]
    Reading a property of [undefined] throws. *)
Definition classes (d : Configuration)
    : RuntimeError + (gmap string string * Configuration) :=
  match _options d with
  | None => inl TypeError
  | Some o =>
      match o_classes o with
      | Some cls => inr (cls, d)
      | None => inr (∅, {| _options := Some (with_classes ∅ o) |})
      end
  end.

(** [get style() { return this._options.style
                          || (this._options.style = {}); }] *)
Definition style (d : Configuration)
    : RuntimeError + (gmap string StyleValue * Configuration) :=
  match _options d with
  | None => inl TypeError
  | Some o =>
      match o_style o with
      | Some st => inr (st, d)
      | None => inr (∅, {| _options := Some (with_style ∅ o) |})
      end
  end.

(** [this.classes.key = value]: the getter runs, then the property is
    assigned on the object it returned, which is the stored one. *)
Definition assign_class (key value : string) (d : Configuration)
    : RuntimeError + Configuration :=
  match classes d with
  | inl err => inl err
  | inr (cls, d') =>
      inr {| _options := with_classes (<[key := value]> cls) <$> _options d' |}
  end.

(** [set classBase(value: string) { this.classes.base = value; }] *)
Definition classBase (value : string) := assign_class "base" value.

(** [set classComplete(value: string) { this.classes.complete = value; }] *)
Definition classComplete (value : string) := assign_class "complete" value.

(** [set classEmpty(value: string) { this.classes.empty = value; }] *)
Definition classEmpty (value : string) := assign_class "empty" value.

(** [set classFocus(value: string) { this.classes.focus = value; }] *)
Definition classFocus (value : string) := assign_class "focus" value.

(** [set classInvalid(value: string) { this.classes.invalid = value; }] *)
Definition classInvalid (value : string) := assign_class "invalid" value.

(** A value bound to one of the five inputs. *)
Inductive ClassInput :=
  | ClassBase (value : string)
  | ClassComplete (value : string)
  | ClassEmpty (value : string)
  | ClassFocus (value : string)
  | ClassInvalid (value : string).

Definition bind_input (i : ClassInput) (d : Configuration)
    : RuntimeError + Configuration :=
  match i with
  | ClassBase v => classBase v d
  | ClassComplete v => classComplete v d
  | ClassEmpty v => classEmpty v d
  | ClassFocus v => classFocus v d
  | ClassInvalid v => classInvalid v d
  end.

(** Bindings one after the other; the first error ends them. *)
Fixpoint bind_inputs (l : list ClassInput) (d : Configuration)
    : RuntimeError + Configuration :=
  match l with
  | [] => inr d
  | i :: l' =>
      match bind_input i d with
      | inl err => inl err
      | inr d' => bind_inputs l' d'
      end
  end.

(** The property an input writes, and the value bound to it. *)
Definition input_key (i : ClassInput) : string :=
  match i with
  | ClassBase _ => "base"
  | ClassComplete _ => "complete"
  | ClassEmpty _ => "empty"
  | ClassFocus _ => "focus"
  | ClassInvalid _ => "invalid"
  end.

Definition input_value (i : ClassInput) : string :=
  match i with
  | ClassBase v | ClassComplete v | ClassEmpty v | ClassFocus v | ClassInvalid v => v
  end.

(** The classes object of some options, [{}] when there is none. *)
Definition classes_of (o : OptionsObject) : gmap string string :=
  default ∅ (o_classes o).

End Configuration.

Arguments OptionsObject : clear implicits.
Arguments Configuration : clear implicits.

(** ** The base style *)

Section BaseStyle.

(** [HTMLElement], and the values a property read can give ([undefined]
    among them; strings, on the style declarations of a browser). *)
Context {HTMLElement Value : Type}.

(** A value that is neither [undefined] nor [null], as [getComputedStyle]
    returns it: every property read on it gives a value. *)
Definition CSSStyleDeclaration : Type := string -> Value.

(** A value bound to [window] that is neither [undefined] nor [null]: the
    window of a browser, or anything else, an empty object or a number.
    Its member [getComputedStyle] is a function or not ([None], the member
    is missing or holds something that cannot be called); a call of the
    function throws, or returns [undefined] or [null] ([inr None]), or
    returns a declaration. *)
Record Window := {
  getComputedStyle :
    option (HTMLElement -> RuntimeError + option CSSStyleDeclaration)
}.

(** What the identifier [window] stands for where the code runs: nothing
    (no such global, as on a server), [undefined] or [null], or another
    value. *)
Inductive Global := Undeclared | Nullish | Present (w : Window).

(** [StripeElementCSSProperties], the ten properties the function fills. *)
Record StripeElementCSSProperties := {
  color : Value;
  fontFamily : Value;
  fontSize : Value;
  fontStyle : Value;
  fontVariant : Value;
  fontWeight : Value;
  letterSpacing : Value;
  textDecoration : Value;
  textShadow : Value;
  textTransform : Value
}.

(** [const computed = window?.getComputedStyle(el);]
    Evaluating an identifier that is not declared throws; [?.] yields
    [undefined] on [undefined] and [null], and on any other value goes on
    to the call, which throws when the member is not a function. *)
Definition computed_style (window : Global) (el : HTMLElement)
    : RuntimeError + option CSSStyleDeclaration :=
  match window with
  | Undeclared => inl ReferenceError
  | Nullish => inr None
  | Present w =>
      match getComputedStyle w with
      | None => inl TypeError
      | Some call => call el
      end
  end.

(** [computeBaseStyle(el)]: reading [computed.color] throws when
    [computed] is [undefined] or [null]. *)
Definition computeBaseStyle (window : Global) (el : HTMLElement)
    : RuntimeError + StripeElementCSSProperties :=
  match computed_style window el with
  | inl err => inl err
  | inr None => inl TypeError
  | inr (Some computed) =>
      inr {| color := computed "color";
             fontFamily := computed "fontFamily";
             fontSize := computed "fontSize";
             fontStyle := computed "fontStyle";
             fontVariant := computed "fontVariant";
             fontWeight := computed "fontWeight";
             letterSpacing := computed "letterSpacing";
             textDecoration := computed "textDecoration";
             textShadow := computed "textShadow";
             textTransform := computed "textTransform" |}
  end.

(** The names of the properties read. *)
Definition base_properties : list string :=
  ["color"; "fontFamily"; "fontSize"; "fontStyle"; "fontVariant"; "fontWeight";
   "letterSpacing"; "textDecoration"; "textShadow"; "textTransform"].

End BaseStyle.

Arguments Window : clear implicits.
Arguments Global : clear implicits.

(** ** More concrete runs and inputs *)
Module Scenes.

Import Card.

(** A second widget replaces the first. *)
Definition relay : list (event string nat) :=
  [Init styleA; Emits 1; Focus; Emits 2; Blur; NgOnDestroy].

(** Disposal twice over before the widget comes, and once after. *)
Definition restless : list (event string nat) :=
  [NgOnDestroy; Init styleA; Focus; NgOnDestroy; Emits 1; Clear; NgOnDestroy].

(** The stream of the container completes without a widget. *)
Definition stalled : list (event string nat) := [Clear; Init styleA; Completes].

(** Bindings of the class inputs; [classBase] is bound twice. *)
Definition bindings : list ClassInput :=
  [ClassBase "field"; ClassFocus "field--focus"; ClassBase "input"].

(** A directive as the constructor leaves its options, and one that has
    lost them. *)
Definition plain : Configuration string string := configured.
Definition stripped : Configuration string string := {| _options := None |}.

(** The declaration a browser computes, and two that differ from it in
    [color] only and in [display] only. *)
Definition on_screen : CSSStyleDeclaration (Value := string) :=
  fun name => String.append name "-of-screen".
Definition tint : CSSStyleDeclaration (Value := string) :=
  fun name => if decide (name = "color") then "red" else on_screen name.
Definition hide : CSSStyleDeclaration (Value := string) :=
  fun name => if decide (name = "display") then "none" else on_screen name.

(** Windows that compute them for every element. *)
Definition screen : Window nat string :=
  {| getComputedStyle := Some (fun el => inr (Some on_screen)) |}.
Definition tinted : Window nat string :=
  {| getComputedStyle := Some (fun el => inr (Some tint)) |}.
Definition hidden : Window nat string :=
  {| getComputedStyle := Some (fun el => inr (Some hide)) |}.

(** [window = {}], a window whose [getComputedStyle] returns [undefined],
    and one whose [getComputedStyle] throws. *)
Definition bare : Window nat string := {| getComputedStyle := None |}.
Definition blank : Window nat string :=
  {| getComputedStyle := Some (fun el => inr None) |}.
Definition strict : Window nat string :=
  {| getComputedStyle := Some (fun el => inl TypeError) |}.

End Scenes.

(** * Properties *)

Section Properties.

Context {T Options Element Container Anchor : Type}.
Context `{!EqDecision Element}.

Local Abbreviation state := (state T Options Element Container Anchor).
Local Abbreviation event := (event Options Element).
Local Abbreviation Call := (Call T Options Element Anchor).

Implicit Types (s : state) (e : event) (evs : list event) (elm : Element)
  (m fn : Method) (cs : list Call) (q : list Method).

(** *** Runs *)

Lemma run_app evs1 evs2 s : run (evs1 ++ evs2) s = run evs1 s ≫= run evs2.
Proof.
  revert s. induction evs1 as [|e evs1 IH]; intros s; simpl; [done|].
  destruct (step e s) as [s'|]; simpl; [apply IH|done].
Qed.

Lemma run_snoc evs e s : run (evs ++ [e]) s = run evs s ≫= step e.
Proof.
  rewrite run_app. destruct (run evs s) as [s'|]; simpl; [|done].
  by destruct (step e s').
Qed.

(** *** Logs *)

Lemma invocations_flush m elm q :
  invocations m ((fun fn => Invoke fn elm : Call) <$> q) = replicate (count m q) elm.
Proof.
  unfold count. induction q as [|fn q IH]; [done|].
  rewrite filter_cons, fmap_cons.
  unfold invocations in *. cbn [omap list_omap].
  destruct (decide (fn = m)); simpl; by rewrite IH.
Qed.

Lemma creates_flush elm q : creates ((fun fn => Invoke fn elm : Call) <$> q) = [].
Proof. unfold creates. by induction q. Qed.

Lemma mounts_flush elm q : mounts ((fun fn => Invoke fn elm : Call) <$> q) = [].
Proof. unfold mounts. by induction q. Qed.

Lemma count_snoc m q fn :
  count m (q ++ [fn]) = count m q + (if decide (fn = m) then 1 else 0).
Proof.
  unfold count. rewrite filter_app, length_app, filter_cons.
  by destruct (decide (fn = m)).
Qed.

Lemma mounted_first_nil : mounted_first ([] : list Call).
Proof. intros [|? ?] ? ? ? ?; discriminate. Qed.

Lemma mounted_first_snoc cs c :
  mounted_first cs ->
  (forall m elm, c = Invoke m elm -> exists a, Mount elm a ∈ cs) ->
  mounted_first (cs ++ [c]).
Proof.
  intros Hcs Hc before after m elm Heq.
  destruct (decide (after = [])) as [->|Hne].
  - apply app_inj_tail in Heq as [-> ->]. by eapply Hc.
  - destruct (exists_last Hne) as (after' & c' & ->).
    rewrite app_comm_cons, app_assoc in Heq.
    apply app_inj_tail in Heq as [-> _]. by eapply Hcs.
Qed.

Lemma mounted_first_app cs cs' :
  mounted_first cs ->
  (forall before after m elm,
      cs' = before ++ Invoke m elm :: after -> exists a, Mount elm a ∈ cs ++ before) ->
  mounted_first (cs ++ cs').
Proof.
  revert cs. induction cs' as [|c cs' IH] using rev_ind; intros cs Hcs Hnew.
  - by rewrite app_nil_r.
  - rewrite app_assoc. apply mounted_first_snoc.
    + apply IH; [done|]. intros before after m elm ->.
      apply (Hnew before (after ++ [c]) m elm). by rewrite <- app_assoc.
    + intros m elm ->. apply (Hnew cs' [] m elm). done.
Qed.

Lemma mounted_first_flush cs elm q :
  mounted_first cs -> (exists a, Mount elm a ∈ cs) ->
  mounted_first (cs ++ ((fun fn => Invoke fn elm) <$> q)).
Proof.
  intros Hcs [a Ha]. apply mounted_first_app; [done|].
  intros before after m elm' Heq. exists a.
  assert (Invoke m elm' ∈ (fun fn => Invoke fn elm : Call) <$> q) as Hin
    by (rewrite Heq; set_solver).
  apply list_elem_of_fmap in Hin as (fn & Hfn & _).
  injection Hfn as _ ->. set_solver.
Qed.

(** *** Reading a run, one event at a time *)

Lemma inits_app evs1 evs2 : inits (evs1 ++ evs2) = inits evs1 ++ inits evs2.
Proof. apply omap_app. Qed.

Lemma emitted_app evs1 evs2 : emitted (evs1 ++ evs2) = emitted evs1 ++ emitted evs2.
Proof. apply omap_app. Qed.

Lemma requested_app evs1 evs2 :
  requested (evs1 ++ evs2) = requested evs1 ++ requested evs2.
Proof. apply omap_app. Qed.

Lemma fired_app evs1 evs2 : fired (evs1 ++ evs2) = fired evs1 ++ fired evs2.
Proof. apply omap_app. Qed.

Lemma focus_notifications_app evs1 evs2 :
  focus_notifications (evs1 ++ evs2)
  = focus_notifications evs1 ++ focus_notifications evs2.
Proof. unfold focus_notifications. by rewrite fired_app, filter_app. Qed.

Lemma completed_app evs1 evs2 :
  completed (evs1 ++ evs2) = completed evs1 || completed evs2.
Proof. apply existsb_app. Qed.

Lemma disposed_app evs1 evs2 :
  disposed (evs1 ++ evs2) = disposed evs1 || disposed evs2.
Proof. apply existsb_app. Qed.

Lemma creates_app cs1 cs2 : creates (cs1 ++ cs2) = creates cs1 ++ creates cs2.
Proof. apply omap_app. Qed.

Lemma mounts_app cs1 cs2 : mounts (cs1 ++ cs2) = mounts cs1 ++ mounts cs2.
Proof. apply omap_app. Qed.

Lemma invocations_app m cs1 cs2 :
  invocations m (cs1 ++ cs2) = invocations m cs1 ++ invocations m cs2.
Proof. apply omap_app. Qed.

(** Rewrites the readings of [evs ++ [e]] and of [cs ++ [c1; ...]] into
    the readings of [evs] and [cs]. *)
Ltac read_snoc :=
  rewrite ?inits_app, ?emitted_app, ?requested_app, ?fired_app,
    ?focus_notifications_app, ?completed_app, ?disposed_app,
    ?creates_app, ?mounts_app, ?invocations_app;
  cbn [inits emitted requested fired focus_notifications completed disposed
       creates mounts invocations omap list_omap existsb filter list_filter];
  rewrite ?app_nil_r, ?orb_false_r, ?orb_true_r.

Lemma elem_of_mounts cs elm (a : Anchor) : (elm, a) ∈ mounts cs <-> Mount elm a ∈ cs.
Proof.
  unfold mounts. rewrite list_elem_of_omap. split.
  - intros (c & Hc & Heq). destruct c; by simplify_eq.
  - intros Hc. by exists (Mount elm a).
Qed.

Lemma last_elem_of {A} (l : list A) (x : A) : last l = Some x -> x ∈ l.
Proof. intros (l' & ->)%last_Some. set_solver. Qed.

(** *** The invariant *)

Lemma consistent_new (type : T) (c : Container) (a : Anchor) :
  consistent type a ([] : list event) (new type c a).
Proof.
  split; try done.
  - intros m elm Hin. by apply elem_of_nil in Hin.
  - apply mounted_first_nil.
Qed.

Lemma consistent_init (type : T) (a : Anchor) evs s o :
  consistent type a evs s -> consistent type a (evs ++ [Init o]) (init o s).
Proof.
  intros Hc. unfold init. rewrite (cons_taken _ _ _ _ Hc).
  destruct Hc. destruct (inits evs) as [|o' os] eqn:Hinits.
  - destruct cons_started0 as [Hcompleted Hemitted]; [done|].
    rewrite Hcompleted in *.
    split; simpl; read_snoc; rewrite ?Hinits, ?Hcompleted; try done.
    + rewrite cons_creates0. simpl. congruence.
    + intros m. read_snoc. apply cons_invocations0.
    + intros m elm [Hin|Hin]%elem_of_app; [by eapply cons_targets0|].
      by apply list_elem_of_singleton in Hin.
    + apply mounted_first_snoc; [done|]. intros m elm [=].
  - split; simpl; read_snoc; rewrite ?Hinits; try done.
Qed.

Lemma consistent_skip (type : T) (a : Anchor) evs s e :
  inits [e] = [] -> emitted [e] = [] -> completed [e] = false ->
  requested [e] = [] ->
  consistent type a evs s -> consistent type a (evs ++ [e]) s.
Proof.
  intros Hinits Hemitted Hcompleted Hrequested [].
  split; rewrite ?inits_app, ?emitted_app, ?completed_app, ?requested_app,
    ?Hinits, ?Hemitted, ?Hcompleted, ?Hrequested, ?app_nil_r, ?orb_false_r;
    done.
Qed.

Lemma consistent_set_sub_closed (type : T) (a : Anchor) evs s :
  consistent type a evs s -> consistent type a evs (set_sub_closed s).
Proof. intros []. by split. Qed.

Lemma consistent_set_ready (type : T) (a : Anchor) evs s b :
  consistent type a evs s -> consistent type a evs (set_ready b s).
Proof. intros []. by split. Qed.

Lemma consistent_set_focused (type : T) (a : Anchor) evs s b :
  consistent type a evs s -> consistent type a evs (set_focused b s).
Proof. intros []. by split. Qed.

(** A call that is neither [create], nor [mount], nor a method of a
    widget: an emission on an output of the directive. *)
Lemma consistent_log_emission (type : T) (a : Anchor) evs s c :
  creates [c] = [] -> mounts [c] = [] -> (forall m, invocations m [c] = []) ->
  consistent type a evs s -> consistent type a evs (log [c] s).
Proof.
  intros Hcreates Hmounts Hinv [].
  split; simpl; rewrite ?creates_app, ?mounts_app, ?Hcreates, ?Hmounts, ?app_nil_r;
    try done.
  - intros m. by rewrite invocations_app, Hinv, app_nil_r.
  - intros m elm [Hin|Hin]%elem_of_app; [by eapply cons_targets0|].
    apply list_elem_of_singleton in Hin as <-. specialize (Hinv m).
    cbn in Hinv. by rewrite decide_True in Hinv.
  - apply mounted_first_snoc; [done|]. intros m elm ->. specialize (Hinv m).
    cbn in Hinv. by rewrite decide_True in Hinv.
Qed.

Lemma consistent_forward (type : T) (a : Anchor) evs s fn e :
  inits [e] = [] -> emitted [e] = [] -> completed [e] = false ->
  requested [e] = [fn] ->
  consistent type a evs s -> consistent type a (evs ++ [e]) (forward fn s).
Proof.
  intros Hinits Hemitted Hcompleted Hrequested Hc.
  unfold forward, instance.
  rewrite (cons_instance _ _ _ _ Hc), (cons_buffer _ _ _ _ Hc),
    (cons_stopped _ _ _ _ Hc).
  destruct Hc.
  destruct (last (emitted evs)) as [elm|] eqn:Hlast;
    [|destruct (completed evs) eqn:Hdone].
  all: split; simpl.
  all: rewrite ?inits_app, ?emitted_app, ?requested_app, ?completed_app,
         ?creates_app, ?mounts_app,
         ?Hinits, ?Hemitted, ?Hcompleted, ?Hrequested,
         ?app_nil_r, ?orb_false_r, ?Hlast, ?Hdone; try done.
  - intros m. rewrite invocations_app, length_app, count_snoc, cons_invocations0.
    cbn. destruct (decide (fn = m)); simpl; lia.
  - intros m elm' [Hin|Hin]%elem_of_app; [by eapply cons_targets0|].
    apply list_elem_of_singleton in Hin. simplify_eq. by apply last_elem_of.
  - apply mounted_first_snoc; [done|]. intros m elm' [= -> ->].
    exists a. apply elem_of_mounts. rewrite cons_mounts0.
    apply list_elem_of_fmap. exists elm'. split; [done|by apply last_elem_of].
  - by rewrite cons_pending0.
Qed.

Lemma consistent_completes (type : T) (a : Anchor) evs s s' :
  consistent type a evs s -> completes s = Some s' ->
  consistent type a (evs ++ [Completes]) s'.
Proof.
  intros Hc. unfold completes. rewrite (cons_inner _ _ _ _ Hc).
  destruct Hc. intros Hs'.
  destruct (inits evs) as [|o os] eqn:Hinits; simpl in Hs'; [done|].
  destruct (completed evs) eqn:Hdone; simpl in Hs'; [done|]. simplify_eq.
  split; simpl; read_snoc; rewrite ?Hinits, ?Hdone; simpl; try done.
  by destruct (last (emitted evs)).
Qed.

Lemma consistent_emits (type : T) (a : Anchor) evs s elm s' :
  consistent type a evs s -> emits elm s = Some s' ->
  consistent type a (evs ++ [Emits elm]) s'.
Proof.
  intros Hc. unfold emits. rewrite (cons_inner _ _ _ _ Hc).
  pose proof (cons_stopped _ _ _ _ Hc) as Hstopped.
  destruct Hc. intros Hs'.
  destruct (inits evs) as [|o os] eqn:Hinits; simpl in Hs'; [done|].
  destruct (completed evs) eqn:Hdone; simpl in Hs'; [done|]. simplify_eq.
  unfold next, tap. rewrite cons_instance0.
  destruct (last (emitted evs)) as [previous|] eqn:Hlast; simpl; rewrite Hstopped.
  - assert (1 <= length (emitted evs)) as Hlen.
    { destruct (emitted evs); [done|simpl; lia]. }
    rewrite cons_pending0.
    split; simpl; read_snoc; rewrite ?Hinits, ?Hdone, ?last_snoc; simpl; try done.
    + rewrite cons_handlers0, bind_app. simpl. by rewrite <- !app_assoc.
    + by rewrite cons_mounts0, fmap_app.
    + intros m. read_snoc. rewrite !length_app, cons_invocations0. simpl.
      destruct (decide (m = m_destroy)) as [->|Hm]; simpl; [lia|].
      destruct m; simpl; done || lia.
    + intros m elm'. rewrite !elem_of_app, !list_elem_of_singleton.
      intros [[[[[Hin| [= _ ->]]|[=]]|[=]]|[=]]|[=]].
      * left. by eapply cons_targets0.
      * left. by apply last_elem_of.
    + repeat apply mounted_first_snoc; try done.
      intros m elm' [= _ <-]. exists (ref s). apply elem_of_mounts.
      rewrite cons_mounts0. apply list_elem_of_fmap. exists previous.
      split; [done|by apply last_elem_of].
  - assert (emitted evs = []) as Hnil by by apply last_None.
    rewrite cons_pending0.
    split; simpl; read_snoc; rewrite ?Hinits, ?Hdone, ?last_snoc; simpl; try done.
    + rewrite cons_handlers0, bind_app. simpl. by rewrite <- !app_assoc.
    + by rewrite creates_flush, app_nil_r.
    + by rewrite mounts_flush, app_nil_r, cons_mounts0, fmap_app.
    + intros m. read_snoc.
      rewrite invocations_flush, !length_app, length_replicate, cons_invocations0, Hnil.
      simpl. destruct (decide (m = m_destroy)); lia.
    + intros m elm'.
      rewrite !elem_of_app, !list_elem_of_singleton, list_elem_of_fmap.
      intros [[[[[Hin|[=]]|[=]]|[=]]|[=]]|(fn & [= _ ->] & _)].
      * left. by eapply cons_targets0.
      * by right.
    + apply mounted_first_flush.
      * repeat apply mounted_first_snoc; done.
      * exists (ref s). apply elem_of_app. right. by apply list_elem_of_singleton.
Qed.

Lemma consistent_step (type : T) (a : Anchor) evs s e s' :
  consistent type a evs s -> step e s = Some s' ->
  consistent type a (evs ++ [e]) s'.
Proof.
  intros Hc Hstep. destruct e as [o| | | |b| |elm| |elm name]; simpl in Hstep.
  - injection Hstep as <-. by apply consistent_init.
  - injection Hstep as <-. by apply consistent_forward.
  - injection Hstep as <-. by apply consistent_forward.
  - injection Hstep as <-. by apply consistent_forward.
  - injection Hstep as <-. by apply consistent_skip.
  - injection Hstep as <-. unfold ngOnDestroy, unsubscribe.
    assert (consistent type a (evs ++ [NgOnDestroy]) (forward m_destroy s)) as Hc'
      by by apply consistent_forward.
    destruct (sub_closed _); [done|by apply consistent_set_sub_closed].
  - by eapply consistent_emits.
  - by eapply consistent_completes.
  - unfold fires in Hstep. case_decide; [|done]. injection Hstep as <-.
    apply (consistent_skip _ _ _ _ (Fires elm name)) in Hc; [|done..].
    destruct name; simpl.
    + by apply consistent_log_emission, consistent_set_ready.
    + by apply consistent_log_emission, consistent_set_focused.
    + by apply consistent_log_emission, consistent_set_focused.
Qed.

(** Every state a run reaches from a new directive is consistent with the
    run. *)
Lemma run_consistent (type : T) (c : Container) (a : Anchor) evs s :
  run evs (new type c a) = Some s -> consistent type a evs s.
Proof.
  revert s. induction evs as [|e evs IH] using rev_ind; intros s.
  - intros [= <-]. apply consistent_new.
  - rewrite run_snoc. destruct (run evs (new type c a)) as [s1|]; [|done].
    simpl. intros Hstep. eapply consistent_step; [by apply IH|done].
Qed.

(** *** The flags, one step at a time *)

Lemma init_flags o s : same_flags s (init o s).
Proof. unfold init, same_flags. by destruct (taken s). Qed.

Lemma forward_flags fn s : same_flags s (forward fn s).
Proof.
  unfold forward, same_flags.
  destruct (instance s); [done|]. destruct (buffer s); [done|].
  by destruct (stopped s).
Qed.

Lemma emits_flags elm s s' : emits elm s = Some s' -> same_flags s s'.
Proof.
  unfold emits, next, tap, same_flags. destruct (decide _); [|done].
  intros [= <-]. destruct (_instance s); simpl; by destruct (stopped s).
Qed.

Lemma step_value e s s' : step e s = Some s' -> _value s' = _value s.
Proof.
  destruct e as [o| | | |b| |elm| |elm name]; simpl.
  - intros [= <-]. apply init_flags.
  - intros [= <-]. apply forward_flags.
  - intros [= <-]. apply forward_flags.
  - intros [= <-]. apply forward_flags.
  - by intros [= <-].
  - intros [= <-]. unfold ngOnDestroy, unsubscribe.
    destruct (sub_closed _); apply forward_flags.
  - intros Hs'. by apply emits_flags in Hs' as (? & ? & ? & ?).
  - unfold completes. destruct (decide _); [|done]. by intros [= <-].
  - unfold fires. destruct (decide _); [|done]. intros [= <-]. by destruct name.
Qed.

Lemma step_ready e s s' :
  step e s = Some s' ->
  _ready s' = match e with Fires _ ev_ready => Some true | _ => _ready s end.
Proof.
  destruct e as [o| | | |b| |elm| |elm name]; simpl.
  - intros [= <-]. apply init_flags.
  - intros [= <-]. apply forward_flags.
  - intros [= <-]. apply forward_flags.
  - intros [= <-]. apply forward_flags.
  - by intros [= <-].
  - intros [= <-]. unfold ngOnDestroy, unsubscribe.
    destruct (sub_closed _); apply forward_flags.
  - intros Hs'. by apply emits_flags in Hs' as (? & ? & ? & ?).
  - unfold completes. destruct (decide _); [|done]. by intros [= <-].
  - unfold fires. destruct (decide _); [|done]. intros [= <-]. by destruct name.
Qed.

Lemma step_focused e s s' :
  step e s = Some s' ->
  _focused s' = match e with
                | Fires _ ev_focus => Some true
                | Fires _ ev_blur => Some false
                | _ => _focused s
                end.
Proof.
  destruct e as [o| | | |b| |elm| |elm name]; simpl.
  - intros [= <-]. apply init_flags.
  - intros [= <-]. apply forward_flags.
  - intros [= <-]. apply forward_flags.
  - intros [= <-]. apply forward_flags.
  - by intros [= <-].
  - intros [= <-]. unfold ngOnDestroy, unsubscribe.
    destruct (sub_closed _); apply forward_flags.
  - intros Hs'. by apply emits_flags in Hs' as (? & ? & ? & ?).
  - unfold completes. destruct (decide _); [|done]. by intros [= <-].
  - unfold fires. destruct (decide _); [|done]. intros [= <-]. by destruct name.
Qed.

Lemma step_sub_closed e s s' :
  step e s = Some s' ->
  sub_closed s' = sub_closed s || disposed [e] || completed [e].
Proof.
  destruct e as [o| | | |b| |elm| |elm name]; simpl; rewrite ?orb_false_r, ?orb_true_r.
  - intros [= <-]. apply init_flags.
  - intros [= <-]. apply forward_flags.
  - intros [= <-]. apply forward_flags.
  - intros [= <-]. apply forward_flags.
  - by intros [= <-].
  - intros [= <-]. unfold ngOnDestroy, unsubscribe.
    by destruct (sub_closed (forward m_destroy s)) eqn:Hclosed.
  - intros Hs'. by apply emits_flags in Hs' as (? & ? & ? & ?).
  - unfold completes. destruct (decide _); [|done]. by intros [= <-].
  - unfold fires. destruct (decide _); [|done]. intros [= <-]. by destruct name.
Qed.

(** *** The flags along a run *)

Lemma run_value evs s s' : run evs s = Some s' -> _value s' = _value s.
Proof.
  revert s. induction evs as [|e evs IH]; intros s; simpl; [by intros [= ->]|].
  destruct (step e s) as [s1|] eqn:Hstep; [|done]. simpl. intros Hrun.
  rewrite (IH _ Hrun). by eapply step_value.
Qed.

Lemma run_ready evs s s' :
  run evs s = Some s' ->
  _ready s' = if existsb (fun name => bool_decide (name = ev_ready)) (fired evs)
              then Some true else _ready s.
Proof.
  revert s. induction evs as [|e evs IH]; intros s; [by intros [= ->]|].
  cbn [run]. destruct (step e s) as [s1|] eqn:Hstep; [|done].
  intros Hrun. simpl in Hrun.
  rewrite (IH _ Hrun), (step_ready _ _ _ Hstep).
  change (e :: evs) with ([e] ++ evs). rewrite fired_app, existsb_app.
  destruct e as [?| | | |?| |?| |? []]; simpl; try done.
  by destruct (existsb _ _).
Qed.

Lemma run_focused evs s s' :
  run evs s = Some s' ->
  _focused s' = match last (focus_notifications evs) with
                | Some name => Some (bool_decide (name = ev_focus))
                | None => _focused s
                end.
Proof.
  revert s. induction evs as [|e evs IH]; intros s; [by intros [= ->]|].
  cbn [run]. destruct (step e s) as [s1|] eqn:Hstep; [|done].
  intros Hrun. simpl in Hrun.
  rewrite (IH _ Hrun), (step_focused _ _ _ Hstep).
  change (e :: evs) with ([e] ++ evs). rewrite focus_notifications_app, last_app.
  destruct (last (focus_notifications evs)); [done|].
  by destruct e as [?| | | |?| |?| |? []].
Qed.

Lemma run_sub_closed evs s s' :
  run evs s = Some s' ->
  sub_closed s' = sub_closed s || disposed evs || completed evs.
Proof.
  revert s. induction evs as [|e evs IH]; intros s.
  { intros [= ->]. simpl. by rewrite !orb_false_r. }
  cbn [run]. destruct (step e s) as [s1|] eqn:Hstep; [|done].
  intros Hrun. simpl in Hrun.
  rewrite (IH _ Hrun), (step_sub_closed _ _ _ Hstep).
  change (e :: evs) with ([e] ++ evs). rewrite disposed_app, completed_app.
  destruct (sub_closed s), (disposed [e]), (completed [e]), (disposed evs),
    (completed evs); done.
Qed.

(** A flag that no step takes back rises at most once, and never falls. *)
Lemma monotone_flag (f : state -> bool) :
  (forall e s s', step e s = Some s' -> f s = true -> f s' = true) ->
  forall evs s s', run evs s = Some s' ->
    rises f evs s = (if negb (f s) && f s' then 1 else 0) /\ falls f evs s = 0.
Proof.
  intros Hmono. induction evs as [|e evs IH]; intros s s'; simpl.
  { intros [= ->]. by destruct (f s'). }
  destruct (step e s) as [s1|] eqn:Hstep; [|done]. simpl. intros Hrun.
  destruct (IH _ _ Hrun) as [-> ->].
  pose proof (Hmono _ _ _ Hstep) as H1.
  assert (forall evs s s', run evs s = Some s' -> f s = true -> f s' = true) as Hrunmono.
  { clear -Hmono. induction evs as [|e evs IH]; intros s s'; simpl.
    - by intros [= ->].
    - destruct (step e s) as [s1|] eqn:Hstep; [|done]. simpl. eauto. }
  pose proof (Hrunmono _ _ _ Hrun) as H2.
  destruct (f s), (f s1), (f s'); simpl; try done.
  all: try (by specialize (H1 eq_refl)).
  all: by specialize (H2 eq_refl).
Qed.

(** *** Small facts used by the main results *)

Lemma elem_of_invocations m elm cs : elm ∈ invocations m cs <-> Invoke m elm ∈ cs.
Proof.
  unfold invocations. rewrite list_elem_of_omap. split.
  - intros (c & Hc & Heq). destruct c; try done. case_decide; by simplify_eq.
  - intros Hc. exists (Invoke m elm). split; [done|]. by rewrite decide_True.
Qed.

Lemma count_destroy_not_disposed evs :
  disposed evs = false -> count m_destroy (requested evs) = 0.
Proof.
  unfold count. induction evs as [|e evs IH]; [done|].
  change (e :: evs) with ([e] ++ evs).
  rewrite disposed_app, requested_app, filter_app, length_app.
  intros [He Hevs]%orb_false_elim. rewrite (IH Hevs).
  by destruct e.
Qed.

Lemma count_destroy_once (pre post : list event) :
  disposed pre = false -> disposed post = false ->
  count m_destroy (requested (pre ++ NgOnDestroy :: post)) = 1.
Proof.
  intros Hpre Hpost. change (NgOnDestroy :: post) with ([NgOnDestroy] ++ post).
  rewrite !requested_app. unfold count. rewrite !filter_app, !length_app.
  fold (count m_destroy (requested pre)) (count m_destroy (requested post)).
  by rewrite !count_destroy_not_disposed.
Qed.

Lemma init_taken o s : taken s = true -> init o s = s.
Proof. unfold init. by intros ->. Qed.

Lemma sub_closed_monotone e s s' :
  step e s = Some s' -> sub_closed s = true -> sub_closed s' = true.
Proof. intros Hstep Hs. by rewrite (step_sub_closed _ _ _ Hstep), Hs. Qed.

Lemma ready_monotone e s s' :
  step e s = Some s' -> ready s = true -> ready s' = true.
Proof.
  unfold ready. intros Hstep. rewrite (step_ready _ _ _ Hstep).
  by destruct e as [?| | | |?| |?| |? []].
Qed.

Lemma forward_creates_mounts fn s :
  creates (calls (forward fn s)) = creates (calls s)
  /\ mounts (calls (forward fn s)) = mounts (calls s).
Proof.
  unfold forward. repeat case_match; simpl; rewrite ?creates_app, ?mounts_app;
    simpl; by rewrite ?app_nil_r.
Qed.

Lemma calls_unsubscribe s : calls (unsubscribe s) = calls s.
Proof. unfold unsubscribe. by destruct (sub_closed s). Qed.

(** * The claims *)

(** C2.  Of all the options pushed through [init], the first alone
    reaches [elements.create]; a later [init] is accepted and changes
    nothing: the run goes on as if it had not been made. *)
Theorem first_init_wins (type : T) (c : Container) (a : Anchor) evs s :
  run evs (new type c a) = Some s ->
  creates (calls s) = match head (inits evs) with
                      | Some first => [(type, first)]
                      | None => []
                      end
  /\ (forall evs1 o evs2,
        evs = evs1 ++ Init o :: evs2 -> inits evs1 <> [] ->
        run (evs1 ++ evs2) (new type c a) = Some s)
  /\ (forall o, taken s = true -> init o s = s).
Proof.
  intros Hrun. split_and!.
  - apply (cons_creates _ _ _ _ (run_consistent _ _ _ _ _ Hrun)).
  - intros evs1 o evs2 -> Hfirst. rewrite run_app in *.
    destruct (run evs1 (new type c a)) as [s1|] eqn:Hrun1; [|done].
    simpl in *. rewrite init_taken in Hrun; [done|].
    rewrite (cons_taken _ _ _ _ (run_consistent _ _ _ _ _ Hrun1)).
    by destruct (inits evs1).
  - intros o. apply init_taken.
Qed.

(** C3.  A call handed to [forward] while an instance is stored is made
    on it at once.  While no widget has been delivered the call is queued
    and nothing is called.  On the first delivery the widget is hooked and
    mounted, then the queued calls are made on it, in the order they were
    requested, and the queue is left empty.  So once a widget is there the
    queue is empty and each [focus], [blur] and [clear] requested in the
    run has been made exactly once, and every call made on a widget comes
    after the mount of that widget. *)
Theorem forward_once (type : T) (c : Container) (a : Anchor) evs s :
  run evs (new type c a) = Some s ->
  (forall fn elm, instance s = Some elm ->
     forward fn s = log [Invoke fn elm] s)
  /\ (forall fn, instance s = None -> completed evs = false ->
        calls (forward fn s) = calls s
        /\ pending (forward fn s) = pending s ++ [fn])
  /\ (forall elm s', instance s = None -> emits elm s = Some s' ->
        calls s' = calls s
                   ++ [On elm ev_ready; On elm ev_focus; On elm ev_blur; Mount elm a]
                   ++ ((fun fn => Invoke fn elm) <$> pending s)
        /\ pending s' = []
        /\ instance s' = Some elm)
  /\ (is_Some (instance s) ->
        pending s = []
        /\ forall fn, fn <> m_destroy ->
             length (invocations fn (calls s)) = count fn (requested evs))
  /\ (instance s = None -> pending s = if completed evs then [] else requested evs)
  /\ mounted_first (calls s).
Proof.
  intros Hrun. destruct (run_consistent _ _ _ _ _ Hrun).
  unfold instance. rewrite cons_instance0. split_and!; try done.
  - intros fn elm Hlast. unfold forward, instance.
    by rewrite cons_instance0, Hlast.
  - intros fn Hlast Hdone. unfold forward, instance.
    by rewrite cons_instance0, cons_buffer0, cons_stopped0, Hlast, Hdone.
  - intros elm s' Hlast. unfold emits, next, tap.
    case_decide as Hactive; [|done]. intros [= <-].
    assert (completed evs = false) as Hdone.
    { rewrite cons_inner0 in Hactive.
      destruct (inits evs), (completed evs); done. }
    rewrite cons_instance0, Hlast. simpl. rewrite cons_stopped0, Hdone. simpl.
    rewrite cons_ref0, <- !app_assoc. done.
  - intros [elm Hlast]. rewrite cons_pending0, Hlast. split; [done|].
    intros fn Hfn. rewrite cons_invocations0, Hlast, decide_False by done. lia.
  - intros Hlast. by rewrite cons_pending0, Hlast.
Qed.

(** C4.  Disposal before any widget is delivered: [ngOnDestroy] is a
    step every state enables; it makes no call; from then on [sub] is
    closed, and along the whole run [sub] goes from open to closed once and
    never back.  As long as no widget is delivered no [destroy] is made,
    whatever else happens.  When the container then delivers a widget, and
    the directive was disposed of once, [destroy] is called once, on that
    widget. *)
Theorem dispose_before_delivery (type : T) (c : Container) (a : Anchor)
    pre post s :
  run (pre ++ NgOnDestroy :: post) (new type c a) = Some s ->
  emitted pre = [] ->
  (exists s1, run pre (new type c a) = Some s1
              /\ step NgOnDestroy s1 = Some (ngOnDestroy s1)
              /\ calls (ngOnDestroy s1) = calls s1
              /\ sub_closed (ngOnDestroy s1) = true)
  /\ sub_closed s = true
  /\ rises sub_closed (pre ++ NgOnDestroy :: post) (new type c a) = 1
  /\ falls sub_closed (pre ++ NgOnDestroy :: post) (new type c a) = 0
  /\ (emitted post = [] -> forall m, invocations m (calls s) = [])
  /\ (forall elm, emitted post = [elm] -> disposed pre = false ->
        disposed post = false -> invocations m_destroy (calls s) = [elm]).
Proof.
  intros Hrun Hpre.
  pose proof (run_consistent _ _ _ _ _ Hrun) as Hc.
  pose proof (run_sub_closed _ _ _ Hrun) as Hclosed.
  rewrite disposed_app in Hclosed. simpl in Hclosed.
  rewrite orb_true_r in Hclosed. simpl in Hclosed.
  destruct (monotone_flag sub_closed sub_closed_monotone _ _ _ Hrun) as [Hrises Hfalls].
  rewrite Hclosed in Hrises. simpl in Hrises.
  assert (emitted (pre ++ NgOnDestroy :: post) = emitted post) as Hemitted.
  { by rewrite emitted_app, Hpre. }
  split_and!; try done.
  - rewrite run_app in Hrun.
    destruct (run pre (new type c a)) as [s1|] eqn:Hrun1; [|done].
    exists s1. split_and!; try done.
    + pose proof (run_consistent _ _ _ _ _ Hrun1) as [].
      unfold ngOnDestroy. rewrite calls_unsubscribe.
      unfold forward, instance. rewrite cons_instance0, cons_buffer0, Hpre.
      simpl. by destruct (stopped s1).
    + unfold ngOnDestroy, unsubscribe.
      by destruct (sub_closed (forward m_destroy s1)) eqn:Heq.
  - intros Hpost m. apply length_zero_iff_nil.
    by rewrite (cons_invocations _ _ _ _ Hc), Hemitted, Hpost.
  - intros elm Hpost Hnot_pre Hnot_post.
    pose proof (cons_invocations _ _ _ _ Hc m_destroy) as Hlen.
    rewrite Hemitted, Hpost, count_destroy_once in Hlen by done. simpl in Hlen.
    destruct (invocations m_destroy (calls s)) as [|elm' [|]] eqn:Hinv; try done.
    assert (elm' ∈ invocations m_destroy (calls s)) as Hin
      by (rewrite Hinv; apply list_elem_of_singleton; done).
    apply elem_of_invocations, (cons_targets _ _ _ _ Hc) in Hin.
    rewrite Hemitted, Hpost in Hin. apply list_elem_of_singleton in Hin.
    by subst.
Qed.

(** C5, as the code has it.  Once a widget is stored, a call of
    [ngOnDestroy] calls [destroy] on it, at once and once, and leaves it
    stored; [sub] is closed.  Nothing keeps a second call of [ngOnDestroy]
    from doing the same: [n] calls in a row make [n] calls of [destroy] on
    the same widget, and none of them is refused. *)
Theorem dispose_after_delivery s elm n :
  instance s = Some elm ->
  exists s',
    run (replicate n NgOnDestroy) s = Some s'
    /\ calls s' = calls s ++ replicate n (Invoke m_destroy elm)
    /\ instance s' = Some elm
    /\ (0 < n -> sub_closed s' = true).
Proof.
  revert s. induction n as [|n IH]; intros s Hinst.
  - exists s. split_and!; try done; [by rewrite app_nil_r|lia].
  - assert (calls (ngOnDestroy s) = calls s ++ [Invoke m_destroy elm]
            /\ instance (ngOnDestroy s) = Some elm
            /\ sub_closed (ngOnDestroy s) = true) as (Hcalls & Hinst' & Hsub).
    { unfold ngOnDestroy, unsubscribe, forward. rewrite Hinst.
      unfold instance in *. simpl. by destruct (sub_closed s) eqn:Heq. }
    destruct (IH _ Hinst') as (s' & Hrun & Hcalls' & Hinst'' & Hsub').
    exists s'. simpl. split_and!; try done.
    + rewrite Hcalls', Hcalls, <- app_assoc. done.
    + intros _. destruct n; [|apply Hsub'; lia].
      simpl in Hrun. by injection Hrun as <-.
Qed.

(** C6.  Without a container the constructor throws the usage error, and
    that is all the program does: whatever was meant to follow, its outcome
    is that error, and no call was made on any collaborator. *)
Theorem missing_container_throws (type : T) (a : Anchor) evs :
  (constructor type None a : Exception + state) = inl usage_error
  /\ session type (None : option Container) a evs = inl usage_error
  /\ effects (session type (None : option Container) a evs) = ([] : list Call).
Proof. done. Qed.

(** C7.  [empty], [complete] and [error] are functions of the stored
    change event alone.  [empty] holds when there is none or when it says
    so, [complete] holds when there is one and it says so, [error] is its
    error, or [null] when there is no event or no error in it.  In every
    state a run of the base class reaches from a new directive no event is
    stored: there [empty] is [true], [complete] is [false] and [error] is
    [null]. *)
Theorem getters_project_value (type : T) (c : Container) (a : Anchor) evs s :
  run evs (new type c a) = Some s ->
  (forall s1 : state,
     (empty s1 = true <->
        value s1 = None \/ exists v, value s1 = Some v /\ ce_empty v = true)
     /\ (complete s1 = true <-> exists v, value s1 = Some v /\ ce_complete v = true)
     /\ (forall err, error s1 = Some err <->
           exists v, value s1 = Some v /\ ce_error v = Some err)
     /\ (error s1 = None <->
           value s1 = None \/ exists v, value s1 = Some v /\ ce_error v = None))
  /\ (forall s1 s2 : state,
        value s1 = value s2 ->
        empty s1 = empty s2 /\ complete s1 = complete s2 /\ error s1 = error s2)
  /\ value s = None /\ empty s = true /\ complete s = false /\ error s = None.
Proof.
  intros Hrun. pose proof (run_value _ _ _ Hrun) as Hvalue. simpl in Hvalue.
  unfold empty, complete, error, value. split_and!.
  - intros s1. destruct (_value s1) as [v|]; split_and!.
    + split; [intros Hv; right; by exists v|by intros [?|(? & [= <-] & ?)]].
    + split; [intros Hv; by exists v|by intros (? & [= <-] & ?)].
    + intros err. split; [intros Hv; by exists v|by intros (? & [= <-] & ?)].
    + split; [intros Hv; right; by exists v|by intros [?|(? & [= <-] & ?)]].
    + split; [by left|done].
    + split; [done|by intros (? & ? & ?)].
    + intros err. split; [done|by intros (? & ? & ?)].
    + split; [by left|done].
  - by intros s1 s2 ->.
  - done.
  - by rewrite Hvalue.
  - by rewrite Hvalue.
  - by rewrite Hvalue.
Qed.

(** C8.  No step takes [ready] back: from a state where it holds every
    step leads to a state where it holds.  A new directive is not ready;
    after a run it is ready exactly when a [ready] callback was invoked
    during the run; along the run the flag rises once in that case and not
    at all otherwise, and it never falls. *)
Theorem ready_never_reverts (type : T) (c : Container) (a : Anchor) evs s :
  run evs (new type c a) = Some s ->
  (forall e (s1 s2 : state), step e s1 = Some s2 -> ready s1 = true -> ready s2 = true)
  /\ ready (new (Options := Options) (Element := Element) type c a) = false
  /\ ready s = bool_decide (ev_ready ∈ fired evs)
  /\ rises ready evs (new type c a) = (if bool_decide (ev_ready ∈ fired evs) then 1 else 0)
  /\ falls ready evs (new type c a) = 0.
Proof.
  intros Hrun.
  assert (ready s = bool_decide (ev_ready ∈ fired evs)) as Hready.
  { unfold ready. rewrite (run_ready _ _ _ Hrun). simpl.
    destruct (existsb _ _) eqn:Hex; simpl; symmetry.
    - apply bool_decide_eq_true. apply existsb_exists in Hex as (name & Hin & Hname).
      apply bool_decide_eq_true in Hname as ->. by apply list_elem_of_In.
    - apply bool_decide_eq_false. intros Hin%list_elem_of_In.
      assert (existsb (fun name => bool_decide (name = ev_ready)) (fired evs) = true)
        as Hex'; [|congruence].
      apply existsb_exists. exists ev_ready. split; [done|]. by apply bool_decide_eq_true. }
  destruct (monotone_flag ready ready_monotone _ _ _ Hrun) as [Hrises Hfalls].
  split_and!; try done.
  - apply ready_monotone.
  - rewrite Hrises, Hready. simpl. by destruct (bool_decide _).
Qed.

(** C9.  [focused] tells which of [focus] and [blur] the widgets notified
    last: it is [true] exactly when the last such notification of the run
    was a [focus], and [false] when it was a [blur] or when there was
    none. *)
Theorem focused_is_last_notification (type : T) (c : Container) (a : Anchor) evs s :
  run evs (new type c a) = Some s ->
  (focused s = true <-> last (focus_notifications evs) = Some ev_focus)
  /\ (focused s = false <->
        last (focus_notifications evs) = Some ev_blur
        \/ last (focus_notifications evs) = None).
Proof.
  intros Hrun. unfold focused. rewrite (run_focused _ _ _ Hrun). simpl.
  destruct (last (focus_notifications evs)) as [name|] eqn:Hlast; simpl.
  - assert (name <> ev_ready) as Hname.
    { apply last_elem_of in Hlast. unfold focus_notifications in Hlast.
      by apply list_elem_of_filter in Hlast as [? _]. }
    destruct name; [done| |]; simpl.
    + split; [done|]. split; [done|by intros [?|?]].
    + split; [done|]. split; [by left|done].
  - split; [done|]. split; [by right|done].
Qed.

(** C10.  [disabled] is [false] in every state, [disable] returns the
    state it was given, whatever the flag, and so no run of the base class
    reaches a state that is disabled. *)
Theorem never_disabled (type : T) (c : Container) (a : Anchor) evs s :
  run evs (new type c a) = Some s ->
  disabled s = false
  /\ (forall s1 : state, disabled s1 = false)
  /\ (forall flag (s1 : state),
        disable flag s1 = s1 /\ step (Disable flag) s1 = Some s1).
Proof. done. Qed.

End Properties.

(** * The claims on a concrete directive *)

Import Card.

(** Closes a goal between closed terms by evaluation. *)
Ltac evaluate := vm_compute; reflexivity.

Example life_calls :
  calls (after life)
  = [Create "card"%string styleA;
     On 1 ev_ready; On 1 ev_focus; On 1 ev_blur; Mount 1 "div#card"%string;
     Invoke m_clear 1; Invoke m_focus 1;
     ReadyChange true; FocusChange; BlurChange; FocusChange;
     Invoke m_blur 1; Invoke m_destroy 1].
Proof. evaluate. Qed.

Example hasty_calls :
  calls (after hasty)
  = [Create "card"%string styleA;
     On 1 ev_ready; On 1 ev_focus; On 1 ev_blur; Mount 1 "div#card"%string;
     Invoke m_clear 1; Invoke m_destroy 1; Invoke m_focus 1; Invoke m_blur 1].
Proof. evaluate. Qed.

Example delivery_needs_init : run [Emits 1] fresh = None.
Proof. evaluate. Qed.

Example callback_needs_hook : run [Init styleA; Fires 1 ev_ready] fresh = None.
Proof. evaluate. Qed.

Example empty_completion_drops_requests :
  pending <$> run [Init styleA; Clear; Completes] fresh = Some []
  /\ calls <$> run [Init styleA; Clear; Completes; Focus] fresh
     = Some [Create "card"%string styleA].
Proof. split; evaluate. Qed.

Lemma first_init_wins_witness :
  run life fresh = Some (after life)
  /\ creates (calls (after life)) = [("card"%string, styleA)]
  /\ run ([Clear; Init styleA] ++ [Focus] ++ late ++ [NgOnDestroy]) fresh
     = Some (after life).
Proof.
  assert (run life fresh = Some (after life)) as Hrun by evaluate.
  assert (life = [Clear; Init styleA] ++ Init styleB :: [Focus] ++ late ++ [NgOnDestroy])
    as Hsplit by evaluate.
  destruct (first_init_wins _ _ _ _ _ Hrun) as (Hcreates & Hdrop & _).
  split; [exact Hrun|]. split; [exact Hcreates|].
  apply (Hdrop _ _ _ Hsplit). discriminate.
Defined.

Lemma forward_once_witness :
  run early fresh = Some (after early)
  /\ calls (after early) = [Create "card"%string styleA]
  /\ pending (after early) = [m_clear; m_focus]
  /\ calls (after (early ++ [Emits 1]))
     = calls (after early)
       ++ [On 1 ev_ready; On 1 ev_focus; On 1 ev_blur; Mount 1 "div#card"%string]
       ++ [Invoke m_clear 1; Invoke m_focus 1]
  /\ pending (after (early ++ [Emits 1])) = [].
Proof.
  assert (run early fresh = Some (after early)) as Hrun by evaluate.
  assert (instance (after early) = None) as Hnone by evaluate.
  assert (emits 1 (after early) = Some (after (early ++ [Emits 1]))) as Hemits
    by evaluate.
  assert (pending (after early) = [m_clear; m_focus]) as Hpending by evaluate.
  destruct (forward_once _ _ _ _ _ Hrun) as (_ & _ & Hflush & _ & _ & _).
  destruct (Hflush _ _ Hnone Hemits) as (Hcalls & Hempty & _).
  rewrite Hpending in Hcalls.
  split; [exact Hrun|]. split; [evaluate|].
  split; [exact Hpending|]. split; [exact Hcalls|exact Hempty].
Defined.

Lemma dispose_before_delivery_witness :
  run hasty fresh = Some (after hasty)
  /\ emitted [Init styleA; Clear] = ([] : list nat)
  /\ sub_closed (after hasty) = true
  /\ rises sub_closed hasty fresh = 1
  /\ invocations m_destroy (calls (after hasty)) = [1].
Proof.
  assert (run ([Init styleA; Clear] ++ NgOnDestroy :: [Focus; Emits 1; Blur]) fresh
          = Some (after hasty)) as Hrun by evaluate.
  assert (emitted [Init styleA; Clear] = ([] : list nat)) as Hpre by evaluate.
  destruct (dispose_before_delivery _ _ _ _ _ _ Hrun Hpre)
    as (_ & Hclosed & Hrises & _ & _ & Hdestroy).
  split; [exact Hrun|]. split; [exact Hpre|].
  split; [exact Hclosed|]. split; [exact Hrises|].
  apply Hdestroy; evaluate.
Defined.

(** C5 as the spec has it fails: two disposals after delivery make two
    calls of [destroy] on the widget. *)
Lemma dispose_twice_destroys_twice :
  run twice fresh = Some (after twice)
  /\ instance (after [Init styleA; Emits 1]) = Some 1
  /\ invocations m_destroy (calls (after twice)) = [1; 1]
  /\ length (invocations m_destroy (calls (after twice))) <> 1.
Proof. split; [evaluate|]. split; [evaluate|]. split; [evaluate|]. vm_compute. discriminate. Qed.

Lemma dispose_after_delivery_witness :
  instance (after [Init styleA; Emits 1]) = Some 1
  /\ exists s',
       run (replicate 2 NgOnDestroy) (after [Init styleA; Emits 1]) = Some s'
       /\ calls s' = calls (after [Init styleA; Emits 1])
                     ++ replicate 2 (Invoke m_destroy 1)
       /\ instance s' = Some 1
       /\ (0 < 2 -> sub_closed s' = true).
Proof.
  assert (instance (after [Init styleA; Emits 1]) = Some 1) as Hinst by evaluate.
  split; [exact Hinst|]. exact (dispose_after_delivery _ _ 2 Hinst).
Defined.

Lemma getters_project_value_witness :
  run life fresh = Some (after life)
  /\ empty (after life) = true
  /\ complete (after life) = false
  /\ error (after life) = None.
Proof.
  assert (run life fresh = Some (after life)) as Hrun by evaluate.
  destruct (getters_project_value _ _ _ _ _ Hrun) as (_ & _ & _ & He & Hc & Herr).
  split; [exact Hrun|]. split; [exact He|]. split; [exact Hc|exact Herr].
Defined.

Lemma ready_never_reverts_witness :
  run life fresh = Some (after life)
  /\ ready (after life) = true
  /\ rises ready life fresh = 1
  /\ falls ready life fresh = 0.
Proof.
  assert (run life fresh = Some (after life)) as Hrun by evaluate.
  assert (bool_decide (ev_ready ∈ fired life) = true) as Hfired by evaluate.
  destruct (ready_never_reverts _ _ _ _ _ Hrun) as (_ & _ & Hready & Hrises & Hfalls).
  rewrite Hfired in Hready, Hrises.
  split; [exact Hrun|]. split; [exact Hready|]. split; [exact Hrises|exact Hfalls].
Defined.

Lemma focused_is_last_notification_witness :
  run (early ++ [Emits 1; Fires 1 ev_focus; Fires 1 ev_blur; Fires 1 ev_focus]) fresh
  = Some (after (early ++ [Emits 1; Fires 1 ev_focus; Fires 1 ev_blur; Fires 1 ev_focus]))
  /\ focused (after (early ++ [Emits 1; Fires 1 ev_focus; Fires 1 ev_blur;
                                Fires 1 ev_focus])) = true.
Proof.
  assert (run (early ++ [Emits 1; Fires 1 ev_focus; Fires 1 ev_blur; Fires 1 ev_focus])
            fresh
          = Some (after (early ++ [Emits 1; Fires 1 ev_focus; Fires 1 ev_blur;
                                   Fires 1 ev_focus]))) as Hrun by evaluate.
  split; [exact Hrun|].
  apply (focused_is_last_notification _ _ _ _ _ Hrun). evaluate.
Defined.

Lemma never_disabled_witness :
  run life fresh = Some (after life)
  /\ disabled (after life) = false
  /\ disable true (after life) = after life.
Proof.
  assert (run life fresh = Some (after life)) as Hrun by evaluate.
  destruct (never_disabled _ _ _ _ _ Hrun) as (Hd & _ & Hnoop).
  split; [exact Hrun|]. split; [exact Hd|]. exact (proj1 (Hnoop true (after life))).
Defined.

(** * More on the lifecycle *)

Section Lifecycle.

Context {T Options Element Container Anchor : Type}.
Context `{!EqDecision Element}.

Local Abbreviation state := (state T Options Element Container Anchor).
Local Abbreviation event := (event Options Element).
Local Abbreviation Call := (Call T Options Element Anchor).

Implicit Types (s : state) (e : event) (evs : list event) (elm : Element)
  (m fn : Method) (cs : list Call) (q : list Method).

(** Induction along the runs of a new directive, with the invariant at
    hand. *)
Lemma run_rev_ind (type : T) (c : Container) (a : Anchor)
    (P : list event -> state -> Prop) :
  P [] (new type c a) ->
  (forall evs s e s',
      run evs (new type c a) = Some s -> consistent type a evs s -> P evs s ->
      step e s = Some s' -> P (evs ++ [e]) s') ->
  forall evs s, run evs (new type c a) = Some s -> P evs s.
Proof.
  intros Hnew Hstep. induction evs as [|e evs IH] using rev_ind; intros s.
  - by intros [= <-].
  - rewrite run_snoc. destruct (run evs (new type c a)) as [s1|] eqn:Hrun; [|done].
    simpl. intros Hs. eapply Hstep; eauto using run_consistent.
Qed.

Lemma forward_calls (type : T) (a : Anchor) evs s m :
  consistent type a evs s ->
  calls (forward m s)
  = calls s ++ match last (emitted evs) with
               | Some elm => [Invoke m elm]
               | None => []
               end.
Proof.
  intros []. unfold forward, instance. rewrite cons_instance0, cons_buffer0.
  destruct (last (emitted evs)); simpl; [done|].
  destruct (stopped s); simpl; by rewrite app_nil_r.
Qed.

Lemma emits_calls (type : T) (a : Anchor) evs s elm s' :
  consistent type a evs s -> emits elm s = Some s' ->
  calls s' = calls s ++ produced type a evs (Emits elm).
Proof.
  intros []. unfold emits. rewrite cons_inner0.
  destruct (inits evs) as [|o os]; [done|].
  destruct (completed evs) eqn:Hdone; [done|].
  rewrite decide_True by done. intros [= <-].
  unfold next, tap, produced. rewrite cons_instance0.
  destruct (last (emitted evs)) eqn:Hlast; simpl; rewrite cons_stopped0; simpl;
    rewrite cons_pending0, cons_ref0, <- ?app_assoc; simpl; by rewrite ?app_nil_r.
Qed.

(** The log only grows, and by what [produced] says. *)
Lemma step_calls (type : T) (a : Anchor) evs s e s' :
  consistent type a evs s -> step e s = Some s' ->
  calls s' = calls s ++ produced type a evs e.
Proof.
  intros Hc.
  destruct e as [o| | | |b| |elm| |elm name]; cbn [step produced].
  - intros [= <-]. destruct Hc. unfold init. rewrite cons_taken0.
    destruct (inits evs); simpl; [by rewrite cons_type0|by rewrite app_nil_r].
  - intros [= <-]. by eapply forward_calls.
  - intros [= <-]. by eapply forward_calls.
  - intros [= <-]. by eapply forward_calls.
  - intros [= <-]. by rewrite app_nil_r.
  - intros [= <-]. unfold ngOnDestroy. rewrite calls_unsubscribe.
    by eapply forward_calls.
  - by apply (emits_calls _ _ _ _ _ _ Hc).
  - unfold completes. destruct (decide _); [|done]. intros [= <-].
    simpl. by rewrite app_nil_r.
  - unfold fires. destruct (decide _); [|done]. intros [= <-]. by destruct name.
Qed.

(** *** Reading the log, part by part *)

Lemma invokes_app cs1 cs2 : invokes (cs1 ++ cs2) = invokes cs1 ++ invokes cs2.
Proof. apply omap_app. Qed.

Lemma registrations_app cs1 cs2 :
  registrations (cs1 ++ cs2) = registrations cs1 ++ registrations cs2.
Proof. apply omap_app. Qed.

Lemma outputs_app cs1 cs2 : outputs (cs1 ++ cs2) = outputs cs1 ++ outputs cs2.
Proof. apply omap_app. Qed.

Lemma invokes_flush elm q :
  invokes ((fun fn => Invoke fn elm : Call) <$> q) = (fun fn => (fn, elm)) <$> q.
Proof.
  induction q as [|fn q IH]; [done|]. rewrite !fmap_cons. unfold invokes in *.
  cbn [omap list_omap]. by rewrite IH.
Qed.

Lemma registrations_flush elm q :
  registrations ((fun fn => Invoke fn elm : Call) <$> q) = [].
Proof. unfold registrations. by induction q. Qed.

Lemma outputs_flush elm q : outputs ((fun fn => Invoke fn elm : Call) <$> q) = [].
Proof. unfold outputs. by induction q. Qed.

Lemma invocations_invokes m cs :
  invocations m cs = snd <$> filter (fun p => p.1 = m) (invokes cs).
Proof.
  induction cs as [|c cs IH]; [done|]. unfold invocations, invokes in *.
  destruct c as [| | |m' elm| | |]; cbn [omap list_omap]; try done.
  rewrite filter_cons. simpl. destruct (decide (m' = m)); simpl; by rewrite IH.
Qed.

Lemma targets_of_requests m elm q :
  snd <$> filter (fun p : Method * Element => p.1 = m) ((fun fn => (fn, elm)) <$> q)
  = replicate (count m q) elm.
Proof.
  unfold count. induction q as [|fn q IH]; [done|].
  rewrite fmap_cons, !filter_cons. cbn [fst].
  destruct (decide (fn = m)); [|done].
  rewrite fmap_cons. cbn [length replicate snd]. by rewrite IH.
Qed.

(** Nothing is called on a widget before the first delivery; with one
    delivery, the calls on the widget are the requests of the run, in
    their order. *)
Lemma invokes_single (type : T) (c : Container) (a : Anchor) evs s :
  run evs (new type c a) = Some s ->
  (emitted evs = [] -> invokes (calls s) = [])
  /\ (forall elm, emitted evs = [elm] ->
        invokes (calls s) = (fun fn => (fn, elm)) <$> requested evs).
Proof.
  revert evs s. apply run_rev_ind; [done|].
  intros evs s e s' _ Hc [Hnone Hone] Hstep.
  rewrite (step_calls _ _ _ _ _ _ Hc Hstep), invokes_app, emitted_app, requested_app.
  assert (forall m,
    (emitted evs ++ [] = [] ->
     invokes (calls s) ++ invokes (match last (emitted evs) with
                                   | Some elm => [Invoke m elm : Call]
                                   | None => []
                                   end) = [])
    /\ (forall elm, emitted evs ++ [] = [elm] ->
          invokes (calls s) ++ invokes (match last (emitted evs) with
                                        | Some elm => [Invoke m elm : Call]
                                        | None => []
                                        end)
          = (fun fn => (fn, elm)) <$> requested evs ++ [m])) as Hrequest.
  { intros m. rewrite app_nil_r. split.
    - intros Hnil. rewrite Hnil. simpl. rewrite app_nil_r. by apply Hnone.
    - intros elm Helm. rewrite Helm, fmap_app, (Hone _ Helm). done. }
  assert ((emitted evs ++ [] = [] -> invokes (calls s) ++ [] = [])
          /\ (forall elm, emitted evs ++ [] = [elm] ->
                invokes (calls s) ++ []
                = (fun fn => (fn, elm)) <$> requested evs ++ [])) as Hsilent.
  { rewrite !app_nil_r. by split. }
  destruct e as [o| | | |b| |elm'| |elm' name];
    cbn [produced emitted requested omap list_omap]; try apply Hrequest;
    try exact Hsilent.
  - destruct (inits evs); exact Hsilent.
  - split; [intros Hnil; by apply app_eq_nil in Hnil as [_ ?]|].
    intros elm Helm. rewrite app_nil_r.
    destruct (emitted evs) as [|x l] eqn:Hemitted.
    + injection Helm as ->. cbn [last]. rewrite invokes_app, invokes_flush.
      by rewrite (Hnone eq_refl).
    + injection Helm as _ Hl. by destruct l.
  - destruct name; exact Hsilent.
Qed.

Lemma elem_of_calls_step (type : T) (a : Anchor) evs s e s' (call : Call) :
  consistent type a evs s -> step e s = Some s' -> call ∈ calls s -> call ∈ calls s'.
Proof.
  intros Hc Hstep Hin. rewrite (step_calls _ _ _ _ _ _ Hc Hstep).
  apply elem_of_app. by left.
Qed.

(** C1.  Whatever methods are called on a directive and whenever the
    container delivers, [elements.create] is called at most once; every
    widget the container delivers is mounted once, on delivery, and no call
    of [focus], [blur], [clear] or [ngOnDestroy] adds a [create] or a
    [mount]: they use the instance that is stored.  They do reach it: a
    call handed to [forward] while an instance is stored is made on that
    instance, and a call handed over before waits in the queue and is made
    on the widget when it is delivered.  Every call forwarded to a widget
    goes to a widget the container delivered, and the stored instance is
    the one delivered last.  With a single delivery there is a single
    mount, and the calls made on widgets are the requests of the run, all
    of them, once each, in their order, on that one widget. *)
Theorem creation_at_most_once (type : T) (c : Container) (a : Anchor) evs s :
  run evs (new type c a) = Some s ->
  length (creates (calls s)) <= 1
  /\ mounts (calls s) = (fun elm => (elm, a)) <$> emitted evs
  /\ instance s = last (emitted evs)
  /\ (forall m elm, Invoke m elm ∈ calls s -> elm ∈ emitted evs)
  /\ (forall elm, emitted evs = [elm] ->
        mounts (calls s) = [(elm, a)]
        /\ instance s = Some elm
        /\ (forall m elm', Invoke m elm' ∈ calls s -> elm' = elm)
        /\ invokes (calls s) = (fun fn => (fn, elm)) <$> requested evs
        /\ pending s = [])
  /\ (forall fn,
        creates (calls (forward fn s)) = creates (calls s)
        /\ mounts (calls (forward fn s)) = mounts (calls s))
  /\ creates (calls (ngOnDestroy s)) = creates (calls s)
  /\ mounts (calls (ngOnDestroy s)) = mounts (calls s)
  /\ (forall fn elm, instance s = Some elm ->
        calls (forward fn s) = calls s ++ [Invoke fn elm]
        /\ calls (ngOnDestroy s) = calls s ++ [Invoke m_destroy elm])
  /\ (instance s = None -> completed evs = false ->
        invokes (calls s) = []
        /\ pending s = requested evs
        /\ (forall fn, pending (forward fn s) = requested evs ++ [fn])
        /\ forall elm s', emits elm s = Some s' ->
             invokes (calls s') = (fun fn => (fn, elm)) <$> requested evs
             /\ instance s' = Some elm
             /\ pending s' = [])
  /\ (is_Some (instance s) -> forall m,
        length (invocations m (calls s))
        = count m (requested evs)
          + (if decide (m = m_destroy) then length (emitted evs) - 1 else 0)).
Proof.
  intros Hrun. pose proof (run_consistent _ _ _ _ _ Hrun) as Hc.
  pose proof (invokes_single _ _ _ _ _ Hrun) as [Hnone Hone].
  assert (forall fn, calls (forward fn s)
                     = calls s ++ match last (emitted evs) with
                                  | Some elm => [Invoke fn elm]
                                  | None => []
                                  end) as Hforward
    by (intros fn; by eapply forward_calls).
  destruct Hc. unfold instance. rewrite cons_instance0.
  split_and!; try done.
  - rewrite cons_creates0. destruct (head (inits evs)); simpl; lia.
  - intros elm Helm. rewrite cons_mounts0, cons_pending0, Helm.
    split_and!; try done.
    + intros m elm' Hin%cons_targets0. rewrite Helm in Hin.
      by apply list_elem_of_singleton in Hin.
    + by apply Hone.
  - intros fn. apply forward_creates_mounts.
  - unfold ngOnDestroy. rewrite calls_unsubscribe. apply forward_creates_mounts.
  - unfold ngOnDestroy. rewrite calls_unsubscribe. apply forward_creates_mounts.
  - intros fn elm Hlast. unfold ngOnDestroy.
    by rewrite calls_unsubscribe, !Hforward, Hlast.
  - intros Hlast Hdone. apply last_None in Hlast as Hnil.
    assert (pending s = requested evs) as Hpending
      by by rewrite cons_pending0, Hnil, Hdone.
    split_and!; try done.
    + by apply Hnone.
    + intros fn. unfold forward, instance.
      rewrite cons_instance0, cons_buffer0, cons_stopped0, Hnil, Hdone. simpl.
      by rewrite Hpending.
    + intros elm s' Hemits.
      assert (run (evs ++ [Emits elm]) (new type c a) = Some s') as Hrun'.
      { rewrite run_snoc, Hrun. done. }
      pose proof (run_consistent _ _ _ _ _ Hrun') as Hc'.
      pose proof (invokes_single _ _ _ _ _ Hrun') as [_ Hone'].
      assert (emitted (evs ++ [Emits elm]) = [elm]) as Helm.
      { by rewrite emitted_app, Hnil. }
      rewrite (cons_instance _ _ _ _ Hc'), (cons_pending _ _ _ _ Hc'), Helm.
      rewrite (Hone' _ Helm), requested_app. simpl. by rewrite app_nil_r.
  - intros [elm Hlast] m. by rewrite cons_invocations0, Hlast.
Qed.

(** X1.  With a single delivery, the calls made on the widget are the
    requests of the whole run, each made once and in the order of the
    requests, whether they were queued or made at once, and whatever their
    kind. *)
Theorem requests_served_in_order (type : T) (c : Container) (a : Anchor) evs s elm :
  run evs (new type c a) = Some s ->
  emitted evs = [elm] ->
  invokes (calls s) = (fun fn => (fn, elm)) <$> requested evs.
Proof. intros Hrun Hone. by apply (invokes_single _ _ _ _ _ Hrun). Qed.

(** X2.  With a single delivery, each method is called on the widget as
    often as it was requested in the run, before the delivery or after: so
    [destroy] is called once for every call of [ngOnDestroy]. *)
Theorem one_call_per_request (type : T) (c : Container) (a : Anchor) evs s elm m :
  run evs (new type c a) = Some s ->
  emitted evs = [elm] ->
  invocations m (calls s) = replicate (count m (requested evs)) elm.
Proof.
  intros Hrun Hone.
  rewrite invocations_invokes, (proj2 (invokes_single _ _ _ _ _ Hrun) _ Hone).
  apply targets_of_requests.
Qed.

(** X3.  A widget that a later delivery has replaced has been destroyed:
    in every state, [destroy] has been called on every delivered widget
    but the last.  The call is made on delivery of the successor, before
    anything is registered on it and before it is mounted. *)
Theorem replaced_widgets_destroyed (type : T) (c : Container) (a : Anchor) evs s :
  run evs (new type c a) = Some s ->
  (forall replaced current elm,
      emitted evs = replaced ++ [current] -> elm ∈ replaced ->
      Invoke m_destroy elm ∈ calls s)
  /\ (forall previous elm s',
        instance s = Some previous -> emits elm s = Some s' ->
        calls s' = calls s ++ [Invoke m_destroy previous; On elm ev_ready;
                               On elm ev_focus; On elm ev_blur; Mount elm a]
        /\ instance s' = Some elm).
Proof.
  intros Hrun. split.
  - revert evs s Hrun. apply (run_rev_ind type c a
      (fun evs s => forall replaced current elm,
         emitted evs = replaced ++ [current] -> elm ∈ replaced ->
         Invoke m_destroy elm ∈ calls s)).
    { intros replaced current elm Hnil. by destruct replaced. }
    intros evs s e s' _ Hc IH Hstep replaced current elm.
    rewrite emitted_app.
    destruct e as [o| | | |b| |elm'| |elm' name];
      cbn [emitted omap list_omap]; rewrite ?app_nil_r.
    1-6,8-9: intros Hsplit Hin; eapply elem_of_calls_step; eauto.
    intros [<- <-]%app_inj_tail Hin.
    rewrite (step_calls _ _ _ _ _ _ Hc Hstep). cbn [produced].
    destruct (last (emitted evs)) as [previous|] eqn:Hlast.
    + apply last_Some in Hlast as [before Hbefore].
      rewrite Hbefore in Hin. apply elem_of_app in Hin as [Hin|Hin].
      * apply elem_of_app. left. by eapply IH.
      * apply list_elem_of_singleton in Hin as ->.
        apply elem_of_app. right. by left.
    + apply last_None in Hlast. rewrite Hlast in Hin. by apply elem_of_nil in Hin.
  - intros previous elm s' Hprevious Hemits.
    pose proof (run_consistent _ _ _ _ _ Hrun) as Hc.
    pose proof (consistent_emits _ _ _ _ _ _ Hc Hemits) as Hc'.
    rewrite (emits_calls _ _ _ _ _ _ Hc Hemits). cbn [produced].
    unfold instance in *. rewrite (cons_instance _ _ _ _ Hc) in Hprevious.
    rewrite Hprevious. split; [done|].
    rewrite (cons_instance _ _ _ _ Hc'), emitted_app.
    cbn [emitted omap list_omap]. by rewrite last_snoc.
Qed.

(** X4.  As long as the container has delivered nothing, the directive has
    called nothing but [create], once if [init] was called and not at all
    otherwise: no widget is touched, no output emits, no callback is
    registered, and the stored instance is [undefined]. *)
Theorem nothing_before_delivery (type : T) (c : Container) (a : Anchor) evs s :
  run evs (new type c a) = Some s ->
  emitted evs = [] ->
  calls s = match head (inits evs) with
            | Some first => [Create type first]
            | None => []
            end
  /\ handlers s = [] /\ instance s = None /\ fired evs = [].
Proof.
  intros Hrun. revert evs s Hrun. apply (run_rev_ind type c a
      (fun evs s => emitted evs = [] ->
         calls s = match head (inits evs) with
                   | Some first => [Create type first]
                   | None => []
                   end
         /\ handlers s = [] /\ instance s = None /\ fired evs = [])).
  { done. }
  intros evs s e s' Hrun Hc IH Hstep.
  pose proof (consistent_step _ _ _ _ _ _ Hc Hstep) as Hc'.
  rewrite emitted_app. intros [Hnil He]%app_eq_nil.
  destruct (IH Hnil) as (Hcalls & Hhandlers & _ & Hfired).
  unfold instance.
  rewrite (cons_handlers _ _ _ _ Hc'), (cons_instance _ _ _ _ Hc'), emitted_app,
    Hnil, He, (step_calls _ _ _ _ _ _ Hc Hstep), Hcalls, inits_app, fired_app, Hfired.
  destruct e as [o| | | |b| |elm'| |elm' name];
    cbn [produced inits fired omap list_omap]; rewrite ?Hnil, ?app_nil_r;
    try done.
  - destruct (inits evs); done.
  - unfold step, fires in Hstep. rewrite Hhandlers in Hstep.
    case_decide as Hin; [|done]. by apply elem_of_nil in Hin.
Qed.

(** X5.  The outputs of the directive emit what the widgets notify and
    nothing else: every callback invoked makes one emission, on
    [readyChange] with the value [true], on [focusChange] or on
    [blurChange], in the order of the notifications; no method of the
    directive and no delivery makes any. *)
Theorem outputs_follow_notifications (type : T) (c : Container) (a : Anchor) evs s :
  run evs (new type c a) = Some s ->
  outputs (calls s) = emission <$> fired evs.
Proof.
  revert evs s. apply run_rev_ind; [done|].
  intros evs s e s' _ Hc IH Hstep.
  rewrite (step_calls _ _ _ _ _ _ Hc Hstep), outputs_app, fired_app, fmap_app, IH.
  f_equal.
  destruct e as [o| | | |b| |elm'| |elm' name]; cbn [produced fired omap list_omap];
    try done.
  - by destruct (inits evs).
  - by destruct (last (emitted evs)).
  - by destruct (last (emitted evs)).
  - by destruct (last (emitted evs)).
  - by destruct (last (emitted evs)).
  - destruct (last (emitted evs)); [done|].
    by rewrite outputs_app, outputs_flush.
  - by destruct name.
Qed.

(** X6.  On every widget it is given, and on nothing else, the directive
    registers three callbacks, for [ready], [focus] and [blur] in that
    order; the callbacks that widgets can invoke are those registrations. *)
Theorem three_hooks_per_widget (type : T) (c : Container) (a : Anchor) evs s :
  run evs (new type c a) = Some s ->
  registrations (calls s) = emitted evs ≫= hooks
  /\ handlers s = registrations (calls s).
Proof.
  intros Hrun.
  assert (registrations (calls s) = emitted evs ≫= hooks) as Hreg.
  { revert evs s Hrun. apply run_rev_ind; [done|].
    intros evs s e s' _ Hc IH Hstep.
    rewrite (step_calls _ _ _ _ _ _ Hc Hstep), registrations_app, emitted_app,
      bind_app, IH.
    f_equal.
    destruct e as [o| | | |b| |elm'| |elm' name];
      cbn [produced emitted omap list_omap]; try done.
    - by destruct (inits evs).
    - by destruct (last (emitted evs)).
    - by destruct (last (emitted evs)).
    - by destruct (last (emitted evs)).
    - by destruct (last (emitted evs)).
    - destruct (last (emitted evs)); [done|].
      by rewrite registrations_app, registrations_flush.
    - by destruct name. }
  split; [done|].
  by rewrite Hreg, (cons_handlers _ _ _ _ (run_consistent _ _ _ _ _ Hrun)).
Qed.

(** X7.  When the stream of the container completes without a widget, the
    directive is inert from then on: every method returns the state it
    was given ([init] is ignored, a forwarded call is dropped without
    being queued, disposal has nothing left to close), and the environment
    has no move left. *)
Theorem inert_after_empty_completion (type : T) (c : Container) (a : Anchor)
    evs s e s' :
  run evs (new type c a) = Some s ->
  completed evs = true -> emitted evs = [] ->
  step e s = Some s' ->
  s' = s /\ forall elm name, e <> Emits elm /\ e <> Completes /\ e <> Fires elm name.
Proof.
  intros Hrun Hdone Hnil.
  pose proof (run_consistent _ _ _ _ _ Hrun) as [].
  pose proof (run_sub_closed _ _ _ Hrun) as Hclosed.
  rewrite Hdone, orb_true_r in Hclosed.
  rewrite Hnil in *. rewrite Hdone in *. simpl in *.
  assert (forall fn, forward fn s = s) as Hforward.
  { intros fn. unfold forward, instance.
    by rewrite cons_instance0, cons_buffer0, cons_stopped0. }
  destruct e as [o| | | |b| |elm'| |elm' name]; cbn [step].
  - intros [= <-]. split; [|done]. apply init_taken. rewrite cons_taken0.
    destruct (inits evs); [|done]. by destruct cons_started0.
  - intros [= <-]. split; [apply Hforward|done].
  - intros [= <-]. split; [apply Hforward|done].
  - intros [= <-]. split; [apply Hforward|done].
  - by intros [= <-].
  - intros [= <-]. split; [|done].
    unfold ngOnDestroy, unsubscribe. by rewrite Hforward, Hclosed.
  - unfold emits. rewrite cons_inner0. by destruct (inits evs).
  - unfold completes. rewrite cons_inner0. by destruct (inits evs).
  - unfold fires. rewrite cons_handlers0.
    destruct (decide _) as [Hin|]; [|done]. simpl in Hin.
    by apply elem_of_nil in Hin.
Qed.

(** X8.  The subscription made by the constructor is closed exactly when
    [ngOnDestroy] has been called or the stream of the container has
    completed: deliveries, requests and notifications leave it open. *)
Theorem sub_open_until_disposed_or_completed (type : T) (c : Container) (a : Anchor)
    evs s :
  run evs (new type c a) = Some s ->
  sub_closed s = disposed evs || completed evs.
Proof. intros Hrun. by rewrite (run_sub_closed _ _ _ Hrun). Qed.

(** *** Runs without notifications *)

Lemma silenced_app evs1 evs2 : silenced (evs1 ++ evs2) = silenced evs1 ++ silenced evs2.
Proof. apply omap_app. Qed.

Lemma collaborators_app cs1 cs2 :
  collaborators (cs1 ++ cs2) = collaborators cs1 ++ collaborators cs2.
Proof. apply omap_app. Qed.

Lemma collaborators_flush elm q :
  collaborators ((fun fn => Invoke fn elm : Call) <$> q)
  = (fun fn => Invoke fn elm) <$> q.
Proof.
  induction q as [|fn q IH]; [done|]. rewrite !fmap_cons. unfold collaborators in *.
  cbn [omap list_omap]. by rewrite IH.
Qed.

Lemma silenced_readings evs :
  inits (silenced evs) = inits evs
  /\ emitted (silenced evs) = emitted evs
  /\ requested (silenced evs) = requested evs
  /\ completed (silenced evs) = completed evs
  /\ disposed (silenced evs) = disposed evs.
Proof.
  induction evs as [|e evs (IH1 & IH2 & IH3 & IH4 & IH5)]; [done|].
  change (e :: evs) with ([e] ++ evs).
  rewrite silenced_app, !inits_app, !emitted_app, !requested_app, !completed_app,
    !disposed_app, IH1, IH2, IH3, IH4, IH5.
  by destruct e.
Qed.

Lemma produced_silenced (type : T) (a : Anchor) evs e :
  produced type a (silenced evs) e = produced type a evs e.
Proof.
  destruct (silenced_readings evs) as (H1 & H2 & H3 & _).
  unfold produced. by rewrite H1, H2, H3.
Qed.

Lemma collaborators_produced (type : T) (a : Anchor) evs e :
  collaborators (produced type a evs e)
  = match e with Fires _ _ => [] | _ => produced type a evs e end.
Proof.
  destruct e as [o| | | |b| |elm| |elm name]; cbn [produced]; try done.
  - by destruct (inits evs).
  - by destruct (last (emitted evs)).
  - by destruct (last (emitted evs)).
  - by destruct (last (emitted evs)).
  - by destruct (last (emitted evs)).
  - destruct (last (emitted evs)); [done|].
    by rewrite collaborators_app, collaborators_flush.
  - by destruct name.
Qed.

(** X9.  What widgets notify has no bearing on what the directive does to
    them or to the container: take the invoked callbacks out of a run, and
    what is left is a run again, which makes the same calls on the
    container and on the widgets, in the same order, and ends with the
    same instance, the same queue, the same registrations and the same
    subscription state. *)
Theorem notifications_do_not_interfere (type : T) (c : Container) (a : Anchor) evs s :
  run evs (new type c a) = Some s ->
  exists s2,
    run (silenced evs) (new type c a) = Some s2
    /\ calls s2 = collaborators (calls s)
    /\ instance s2 = instance s
    /\ pending s2 = pending s
    /\ handlers s2 = handlers s
    /\ sub_closed s2 = sub_closed s.
Proof.
  intros Hrun.
  assert (exists s2, run (silenced evs) (new type c a) = Some s2
                     /\ calls s2 = collaborators (calls s)) as (s2 & Hrun2 & Hcalls).
  { revert evs s Hrun. apply (run_rev_ind type c a
      (fun evs s => exists s2, run (silenced evs) (new type c a) = Some s2
                               /\ calls s2 = collaborators (calls s))).
    { by exists (new type c a). }
    intros evs s e s' _ Hc (s2 & Hrun2 & Hcalls) Hstep.
    pose proof (run_consistent _ _ _ _ _ Hrun2) as Hc2.
    rewrite silenced_app, (step_calls _ _ _ _ _ _ Hc Hstep), collaborators_app,
      collaborators_produced.
    assert (forall s2', step e s2 = Some s2' ->
              silenced [e] = [e] ->
              run (silenced evs ++ [e]) (new type c a) = Some s2'
              /\ calls s2' = collaborators (calls s) ++ produced type a evs e)
      as Hkeep.
    { intros s2' Hstep2 _. rewrite run_snoc, Hrun2. split; [done|].
      by rewrite (step_calls _ _ _ _ _ _ Hc2 Hstep2), produced_silenced, Hcalls. }
    assert (inner s2 = inner s) as Hinner.
    { destruct (silenced_readings evs) as (H1 & _ & _ & H4 & _).
      by rewrite (cons_inner _ _ _ _ Hc2), (cons_inner _ _ _ _ Hc), H1, H4. }
    destruct e as [o| | | |b| |elm| |elm name].
    1-6: eexists; by apply Hkeep.
    - cbn [step] in Hstep. unfold emits in Hstep.
      destruct (decide (inner s = Active)) as [Hactive|]; [|done].
      eexists. apply Hkeep; [|done]. cbn [step]. unfold emits.
      by rewrite decide_True by congruence.
    - cbn [step] in Hstep. unfold completes in Hstep.
      destruct (decide (inner s = Active)) as [Hactive|]; [|done].
      eexists. apply Hkeep; [|done]. cbn [step]. unfold completes.
      by rewrite decide_True by congruence.
    - exists s2. cbn [silenced omap list_omap]. by rewrite !app_nil_r. }
  exists s2. split; [done|]. split; [done|].
  pose proof (run_consistent _ _ _ _ _ Hrun) as Hc.
  pose proof (run_consistent _ _ _ _ _ Hrun2) as Hc2.
  destruct (silenced_readings evs) as (H1 & H2 & H3 & H4 & H5).
  unfold instance.
  rewrite (cons_instance _ _ _ _ Hc2), (cons_instance _ _ _ _ Hc),
    (cons_pending _ _ _ _ Hc2), (cons_pending _ _ _ _ Hc),
    (cons_handlers _ _ _ _ Hc2), (cons_handlers _ _ _ _ Hc),
    (run_sub_closed _ _ _ Hrun2), (run_sub_closed _ _ _ Hrun), H2, H3, H4, H5.
  done.
Qed.

End Lifecycle.

(** * The options and the base style *)

Section ConfigurationFacts.

Context {StyleValue Other : Type}.

Local Abbreviation OptionsObject := (OptionsObject StyleValue Other).
Local Abbreviation Configuration := (Configuration StyleValue Other).

Implicit Types (d : Configuration) (o : OptionsObject) (i : ClassInput)
  (l : list ClassInput).

Lemma assign_class_object key value d o :
  _options d = Some o ->
  assign_class key value d
  = inr {| _options := Some (with_classes (<[key := value]> (classes_of o)) o) |}.
Proof.
  intros Ho. unfold assign_class, classes, classes_of. rewrite Ho.
  destruct (o_classes o) as [cls|] eqn:Hcls; simpl; rewrite ?Ho; by destruct o.
Qed.

Lemma bind_input_object i d o :
  _options d = Some o ->
  bind_input i d
  = inr {| _options :=
             Some (with_classes (<[input_key i := input_value i]> (classes_of o)) o) |}.
Proof. intros Ho. destruct i; by apply assign_class_object. Qed.

(** X10.  On a directive whose [_options] is an object, as the constructor
    leaves it, any sequence of bindings of the five class inputs goes
    through without an error.  Afterwards each class property holds the
    value bound last to its input, a property whose input was not bound
    holds what it held before, and [style] and the other options are as
    they were. *)
Theorem class_inputs_last_wins l d o :
  _options d = Some o ->
  exists o',
    bind_inputs l d = inr {| _options := Some o' |}
    /\ o_style o' = o_style o
    /\ o_other o' = o_other o
    /\ (l <> [] -> is_Some (o_classes o'))
    /\ forall key,
         classes_of o' !! key
         = match last (filter (fun i => input_key i = key) l) with
           | Some i => Some (input_value i)
           | None => classes_of o !! key
           end.
Proof.
  revert d o. induction l as [|i l IH]; intros d o Ho.
  - exists o. destruct d as [od]. simpl in Ho. subst od. by split_and!.
  - cbn [bind_inputs]. rewrite (bind_input_object _ _ _ Ho).
    destruct (IH {| _options := Some (with_classes
                     (<[input_key i := input_value i]> (classes_of o)) o) |}
                 _ eq_refl) as (o' & Hbind & Hstyle & Hother & Hsome & Hlookup).
    exists o'. split_and!; try done.
    + intros _. destruct l as [|i' l']; [|by apply Hsome].
      simpl in Hbind. by injection Hbind as <-.
    + intros key. rewrite Hlookup, filter_cons.
      change (classes_of (with_classes ?cls o)) with cls.
      destruct (decide (input_key i = key)) as [Hkey|Hkey].
      * rewrite last_cons.
        destruct (last (filter _ l)); [done|]. by rewrite Hkey, lookup_insert_eq.
      * destruct (last (filter _ l)); [done|]. by rewrite lookup_insert_ne.
Qed.

(** X11.  On a directive whose [_options] is an object, [classes] and
    [style] do not throw.  Each returns the object that is stored, after
    storing [{}] if there was none; no other option changes; a second
    call returns the same object and changes nothing; an object that was
    there is never replaced.  The two getters commute, and [options]
    returns the stored options and changes nothing. *)
Theorem getters_initialise_once d o :
  _options d = Some o ->
  (exists d1,
      classes d = inr (classes_of o, d1)
      /\ _options d1 = Some (with_classes (classes_of o) o)
      /\ classes d1 = inr (classes_of o, d1)
      /\ (is_Some (o_classes o) -> d1 = d))
  /\ (exists d2,
        style d = inr (default ∅ (o_style o), d2)
        /\ _options d2 = Some (with_style (default ∅ (o_style o)) o)
        /\ style d2 = inr (default ∅ (o_style o), d2)
        /\ (is_Some (o_style o) -> d2 = d))
  /\ (forall cls d1 st d12 d2 cls' d21,
        classes d = inr (cls, d1) -> style d1 = inr (st, d12) ->
        style d = inr (st, d2) -> classes d2 = inr (cls', d21) ->
        cls' = cls /\ d21 = d12)
  /\ options d = (o, d).
Proof.
  intros Ho. destruct d as [od]. simpl in Ho. subst od.
  unfold classes, style, options, classes_of. simpl. split_and!.
  - destruct o as [[cls|] st other]; simpl;
      eexists; split_and!; try done; by intros [? ?].
  - destruct o as [cls [st|] other]; simpl;
      eexists; split_and!; try done; by intros [? ?].
  - intros cls d1 st d12 d2 cls' d21.
    unfold with_classes, with_style.
    destruct o as [[cls0|] [st0|] other]; simpl; intros H1 H2 H3 H4.
    all: simplify_eq; simpl in *; by simplify_eq.
  - done.
Qed.

(** X12.  [options] is the one accessor that stands a missing [_options]:
    it stores [{}] and returns it.  [classes], [style] and the five class
    inputs read [this._options] as it is and throw a [TypeError] when it
    is [undefined]; once [options] has run they go through. *)
Theorem missing_options d :
  _options d = None ->
  options d = (empty_options, configured)
  /\ classes d = inl TypeError
  /\ style d = inl TypeError
  /\ (forall i, bind_input i d = inl TypeError)
  /\ classes (options d).2 = inr (∅, {| _options := Some (with_classes ∅ empty_options) |})
  /\ forall i, exists d', bind_input i (options d).2 = inr d'.
Proof.
  intros Ho. unfold options, classes, style. rewrite Ho. simpl. split_and!; try done.
  - intros i. destruct i; unfold bind_input, classBase, classComplete, classEmpty,
      classFocus, classInvalid, assign_class, classes; by rewrite Ho.
  - intros i. eexists. by apply bind_input_object.
Qed.

End ConfigurationFacts.


Section BaseStyleFacts.

Context {HTMLElement Value : Type}.

Local Abbreviation Window := (Window HTMLElement Value).
Local Abbreviation Global := (Global HTMLElement Value).

Implicit Types (window : Global) (w : Window) (el : HTMLElement)
  (computed : CSSStyleDeclaration (Value := Value)).

(** What [computeBaseStyle] does when [getComputedStyle] has returned a
    declaration. *)
Lemma base_style_computed window el w call computed :
  window = Present w -> getComputedStyle w = Some call ->
  call el = inr (Some computed) ->
  computeBaseStyle window el
  = inr {| color := computed "color";
           fontFamily := computed "fontFamily";
           fontSize := computed "fontSize";
           fontStyle := computed "fontStyle";
           fontVariant := computed "fontVariant";
           fontWeight := computed "fontWeight";
           letterSpacing := computed "letterSpacing";
           textDecoration := computed "textDecoration";
           textShadow := computed "textShadow";
           textTransform := computed "textTransform" |}.
Proof.
  intros -> Hcall Hel. unfold computeBaseStyle, computed_style.
  by rewrite Hcall, Hel.
Qed.

(** X13.  [computeBaseStyle] returns a style exactly when [window] is
    bound to a value other than [undefined] and [null] whose
    [getComputedStyle] is a function that, called on the element, returns
    a value other than [undefined] and [null].  In every other case it
    throws: a [ReferenceError] where the identifier is not declared; a
    [TypeError] where [window] is [undefined] or [null] (the [?.] only
    moves the failure to the first property read), where the member is not
    a function, and where the call returns [undefined] or [null]; and
    what the call throws, when it throws.  The style returned holds what
    the ten properties read on the declaration give, and depends on
    nothing else: two computations return the same style exactly when the
    declarations agree on these ten. *)
Theorem base_style_of_computed window el :
  ((exists st, computeBaseStyle window el = inr st)
   <-> exists w call computed,
         window = Present w /\ getComputedStyle w = Some call
         /\ call el = inr (Some computed))
  /\ (window = Undeclared -> computeBaseStyle window el = inl ReferenceError)
  /\ (window = Nullish -> computeBaseStyle window el = inl TypeError)
  /\ (forall w, window = Present w -> getComputedStyle w = None ->
        computeBaseStyle window el = inl TypeError)
  /\ (forall w call, window = Present w -> getComputedStyle w = Some call ->
        (call el = inr None -> computeBaseStyle window el = inl TypeError)
        /\ (forall err, call el = inl err -> computeBaseStyle window el = inl err))
  /\ (forall w call computed st,
        window = Present w -> getComputedStyle w = Some call ->
        call el = inr (Some computed) -> computeBaseStyle window el = inr st ->
        color st = computed "color"
        /\ fontFamily st = computed "fontFamily"
        /\ fontSize st = computed "fontSize"
        /\ fontStyle st = computed "fontStyle"
        /\ fontVariant st = computed "fontVariant"
        /\ fontWeight st = computed "fontWeight"
        /\ letterSpacing st = computed "letterSpacing"
        /\ textDecoration st = computed "textDecoration"
        /\ textShadow st = computed "textShadow"
        /\ textTransform st = computed "textTransform")
  /\ (forall w call computed window' el' w' call' computed',
        window = Present w -> getComputedStyle w = Some call ->
        call el = inr (Some computed) ->
        window' = Present w' -> getComputedStyle w' = Some call' ->
        call' el' = inr (Some computed') ->
        (computeBaseStyle window el = computeBaseStyle window' el'
         <-> forall name, name ∈ base_properties -> computed name = computed' name)).
Proof.
  split_and!.
  - split.
    + intros [st Hst]. unfold computeBaseStyle, computed_style in Hst.
      destruct window as [| |w]; try done.
      destruct (getComputedStyle w) as [call|] eqn:Hcall; [|done].
      destruct (call el) as [err|[computed|]] eqn:Hel; try done.
      by exists w, call, computed.
    + intros (w & call & computed & Hw & Hcall & Hel).
      eexists. by eapply base_style_computed.
  - by intros ->.
  - by intros ->.
  - intros w -> Hcall. unfold computeBaseStyle, computed_style. by rewrite Hcall.
  - intros w call -> Hcall. unfold computeBaseStyle, computed_style.
    rewrite Hcall. split; [by intros ->|]. by intros err ->.
  - intros w call computed st Hw Hcall Hel.
    rewrite (base_style_computed _ _ _ _ _ Hw Hcall Hel). intros [= <-].
    by split_and!.
  - intros w call computed window' el' w' call' computed' Hw Hcall Hel Hw' Hcall' Hel'.
    rewrite (base_style_computed _ _ _ _ _ Hw Hcall Hel),
      (base_style_computed _ _ _ _ _ Hw' Hcall' Hel').
    split.
    + intros [= H1 H2 H3 H4 H5 H6 H7 H8 H9 H10] name Hname.
      unfold base_properties in Hname.
      repeat (apply elem_of_cons in Hname as [->|Hname]; [done|]).
      by apply elem_of_nil in Hname.
    + intros Hagree. f_equal. f_equal; apply Hagree; unfold base_properties;
        repeat ((by left) || right).
Qed.

End BaseStyleFacts.

(** * The further facts on concrete runs and inputs *)

Import Scenes.

Lemma creation_at_most_once_witness :
  run life fresh = Some (after life)
  /\ length (creates (calls (after life))) <= 1
  /\ mounts (calls (after life)) = [(1, "div#card"%string)]
  /\ instance (after life) = Some 1
  /\ invokes (calls (after life))
     = [(m_clear, 1); (m_focus, 1); (m_blur, 1); (m_destroy, 1)]
  /\ pending (after life) = [].
Proof.
  assert (run life fresh = Some (after life)) as Hrun by evaluate.
  assert (emitted life = [1]) as Hone by evaluate.
  destruct (creation_at_most_once _ _ _ _ _ Hrun) as (Hcreate & _ & _ & _ & Hsingle & _).
  destruct (Hsingle 1 Hone) as (Hmount & Hinst & _ & Hinvokes & Hpending).
  split; [exact Hrun|]. split; [exact Hcreate|]. split; [exact Hmount|].
  split; [exact Hinst|]. split; [exact Hinvokes|exact Hpending].
Defined.

Lemma requests_served_in_order_witness :
  run restless fresh = Some (after restless)
  /\ emitted restless = [1]
  /\ invokes (calls (after restless))
     = [(m_destroy, 1); (m_focus, 1); (m_destroy, 1); (m_clear, 1); (m_destroy, 1)].
Proof.
  assert (run restless fresh = Some (after restless)) as Hrun by evaluate.
  assert (emitted restless = [1]) as Hone by evaluate.
  split; [exact Hrun|]. split; [exact Hone|].
  exact (requests_served_in_order _ _ _ _ _ _ Hrun Hone).
Defined.

Lemma one_call_per_request_witness :
  run restless fresh = Some (after restless)
  /\ emitted restless = [1]
  /\ invocations m_destroy (calls (after restless)) = [1; 1; 1].
Proof.
  assert (run restless fresh = Some (after restless)) as Hrun by evaluate.
  assert (emitted restless = [1]) as Hone by evaluate.
  split; [exact Hrun|]. split; [exact Hone|].
  exact (one_call_per_request _ _ _ _ _ _ m_destroy Hrun Hone).
Defined.

Lemma replaced_widgets_destroyed_witness :
  run relay fresh = Some (after relay)
  /\ emitted relay = [1] ++ [2]
  /\ Invoke m_destroy 1 ∈ calls (after relay).
Proof.
  assert (run relay fresh = Some (after relay)) as Hrun by evaluate.
  assert (emitted relay = [1] ++ [2]) as Hsplit by evaluate.
  split; [exact Hrun|]. split; [exact Hsplit|].
  apply (proj1 (replaced_widgets_destroyed _ _ _ _ _ Hrun) [1] 2 1 Hsplit).
  by apply list_elem_of_singleton.
Defined.

Lemma nothing_before_delivery_witness :
  run early fresh = Some (after early)
  /\ emitted early = []
  /\ calls (after early) = [Create "card"%string styleA]
  /\ handlers (after early) = [].
Proof.
  assert (run early fresh = Some (after early)) as Hrun by evaluate.
  assert (emitted early = ([] : list nat)) as Hnone by evaluate.
  destruct (nothing_before_delivery _ _ _ _ _ Hrun Hnone) as (Hcalls & Hhandlers & _).
  split; [exact Hrun|]. split; [exact Hnone|]. split; [exact Hcalls|exact Hhandlers].
Defined.

Lemma outputs_follow_notifications_witness :
  run life fresh = Some (after life)
  /\ outputs (calls (after life))
     = [ReadyChange true; FocusChange; BlurChange; FocusChange].
Proof.
  assert (run life fresh = Some (after life)) as Hrun by evaluate.
  split; [exact Hrun|]. exact (outputs_follow_notifications _ _ _ _ _ Hrun).
Defined.

Lemma three_hooks_per_widget_witness :
  run relay fresh = Some (after relay)
  /\ registrations (calls (after relay))
     = [(1, ev_ready); (1, ev_focus); (1, ev_blur);
        (2, ev_ready); (2, ev_focus); (2, ev_blur)].
Proof.
  assert (run relay fresh = Some (after relay)) as Hrun by evaluate.
  split; [exact Hrun|]. exact (proj1 (three_hooks_per_widget _ _ _ _ _ Hrun)).
Defined.

Lemma inert_after_empty_completion_witness :
  run stalled fresh = Some (after stalled)
  /\ completed stalled = true
  /\ emitted stalled = ([] : list nat)
  /\ step NgOnDestroy (after stalled) = Some (ngOnDestroy (after stalled))
  /\ ngOnDestroy (after stalled) = after stalled.
Proof.
  assert (run stalled fresh = Some (after stalled)) as Hrun by evaluate.
  assert (completed stalled = true) as Hdone by evaluate.
  assert (emitted stalled = ([] : list nat)) as Hnone by evaluate.
  split; [exact Hrun|]. split; [exact Hdone|]. split; [exact Hnone|].
  split; [reflexivity|].
  exact (proj1 (inert_after_empty_completion _ _ _ _ _ NgOnDestroy _
                  Hrun Hdone Hnone eq_refl)).
Defined.

Lemma sub_open_until_disposed_or_completed_witness :
  run (early ++ late) fresh = Some (after (early ++ late))
  /\ sub_closed (after (early ++ late)) = false.
Proof.
  assert (run (early ++ late) fresh = Some (after (early ++ late))) as Hrun by evaluate.
  split; [exact Hrun|].
  exact (sub_open_until_disposed_or_completed _ _ _ _ _ Hrun).
Defined.

Lemma notifications_do_not_interfere_witness :
  run life fresh = Some (after life)
  /\ exists s2,
       run (silenced life) fresh = Some s2
       /\ calls s2 = collaborators (calls (after life))
       /\ instance s2 = instance (after life)
       /\ pending s2 = pending (after life)
       /\ handlers s2 = handlers (after life)
       /\ sub_closed s2 = sub_closed (after life).
Proof.
  assert (run life fresh = Some (after life)) as Hrun by evaluate.
  split; [exact Hrun|]. exact (notifications_do_not_interfere _ _ _ _ _ Hrun).
Defined.

Lemma class_inputs_last_wins_witness :
  _options plain = Some empty_options
  /\ exists o',
       bind_inputs bindings plain = inr {| _options := Some o' |}
       /\ classes_of o' !! "base"%string = Some "input"%string
       /\ classes_of o' !! "focus"%string = Some "field--focus"%string
       /\ classes_of o' !! "invalid"%string = None.
Proof.
  split; [reflexivity|].
  destruct (class_inputs_last_wins bindings plain empty_options eq_refl)
    as (o' & Hbind & _ & _ & _ & Hlookup).
  exists o'. split; [exact Hbind|].
  split; [exact (Hlookup "base"%string)|].
  split; [exact (Hlookup "focus"%string)|exact (Hlookup "invalid"%string)].
Defined.

Lemma getters_initialise_once_witness :
  _options plain = Some empty_options
  /\ classes plain = inr (∅, {| _options := Some (with_classes ∅ empty_options) |})
  /\ options plain = (empty_options, plain).
Proof.
  split; [reflexivity|].
  destruct (getters_initialise_once plain empty_options eq_refl)
    as ((d1 & Hclasses & Hd1 & _) & _ & _ & Hoptions).
  split; [|exact Hoptions].
  destruct d1 as [od]. simpl in Hd1. subst od. exact Hclasses.
Defined.

Lemma missing_options_witness :
  _options stripped = None
  /\ classes stripped = inl TypeError
  /\ classBase "field" stripped = inl TypeError
  /\ options stripped = (empty_options, plain).
Proof.
  split; [reflexivity|].
  destruct (missing_options stripped eq_refl) as (Hoptions & Hclasses & _ & Hinput & _).
  split; [exact Hclasses|]. split; [exact (Hinput (ClassBase "field"))|exact Hoptions].
Defined.

Lemma base_style_of_computed_witness :
  computeBaseStyle (Present screen) 0 <> computeBaseStyle (Present tinted) 0
  /\ computeBaseStyle (Present screen) 0 = computeBaseStyle (Present hidden) 1
  /\ computeBaseStyle (@Nullish nat string) 0 = inl TypeError
  /\ computeBaseStyle (Present bare) 0 = inl TypeError
  /\ computeBaseStyle (Present blank) 0 = inl TypeError
  /\ computeBaseStyle (Present strict) 0 = inl TypeError
  /\ computeBaseStyle (@Undeclared nat string) 0 = inl ReferenceError.
Proof.
  destruct (base_style_of_computed (Present screen) 0) as (_ & _ & _ & _ & _ & _ & Hsame).
  destruct (base_style_of_computed (@Nullish nat string) 0) as (_ & _ & Hnull & _).
  destruct (base_style_of_computed (@Undeclared nat string) 0) as (_ & Hnone & _).
  destruct (base_style_of_computed (Present bare) 0) as (_ & _ & _ & Hbare & _).
  destruct (base_style_of_computed (Present blank) 0) as (_ & _ & _ & _ & Hblank & _).
  destruct (base_style_of_computed (Present strict) 0) as (_ & _ & _ & _ & Hstrict & _).
  split_and!.
  - intros Heq.
    apply (Hsame screen _ on_screen (Present tinted) 0 tinted _ tint
             eq_refl eq_refl eq_refl eq_refl eq_refl eq_refl)
      with (name := "color"%string) in Heq.
    + vm_compute in Heq. discriminate.
    + by left.
  - apply (Hsame screen _ on_screen (Present hidden) 1 hidden _ hide
             eq_refl eq_refl eq_refl eq_refl eq_refl eq_refl).
    intros name Hname. unfold base_properties in Hname.
    repeat (apply elem_of_cons in Hname as [->|Hname]; [reflexivity|]).
    by apply elem_of_nil in Hname.
  - exact (Hnull eq_refl).
  - exact (Hbare bare eq_refl eq_refl).
  - exact (proj1 (Hblank blank _ eq_refl eq_refl) eq_refl).
  - exact (proj2 (Hstrict strict _ eq_refl eq_refl) TypeError eq_refl).
  - exact (Hnone eq_refl).
Defined.
